(** * Remote-store cache, configuration gate and status endpoint of kana-dojo

    A shallow embedding of
      - [src/shared/lib/redis.ts]   (the pipelined REST client),
      - [src/unnamed/part_007]      (the hashed JSON cache),
      - [src/unnamed/part_002]      (the health-check route handler),
    together with the host facilities these files call (SHA-256, the
    JSON codec, [fetch]) and the fixed-window limiter that the repository
    imports from [@/shared/lib/rateLimit]. *)

From stdpp Require Import base option list gmap strings pretty.
From Stdlib Require Import ZArith Ascii Lia DecimalString DecimalZ.

Open Scope Z_scope.

(** ** Host facility: SHA-256 (Node's [createHash('sha256')], FIPS 180-4) *)

Module Sha256.

(** Words are 32-bit unsigned integers carried in [Z]; every operation
    that can overflow reduces modulo 2^32. *)
Definition w32 (x : Z) : Z := x mod 2 ^ 32.
Definition add32 (x y : Z) : Z := w32 (x + y).
Definition not32 (x : Z) : Z := Z.lxor x (2 ^ 32 - 1).
Definition rotr (n x : Z) : Z :=
  Z.lor (Z.shiftr x n) (w32 (Z.shiftl x (32 - n))).

Definition Ch (x y z : Z) : Z := Z.lxor (Z.land x y) (Z.land (not32 x) z).
Definition Maj (x y z : Z) : Z :=
  Z.lxor (Z.lxor (Z.land x y) (Z.land x z)) (Z.land y z).
Definition bsig0 (x : Z) : Z := Z.lxor (Z.lxor (rotr 2 x) (rotr 13 x)) (rotr 22 x).
Definition bsig1 (x : Z) : Z := Z.lxor (Z.lxor (rotr 6 x) (rotr 11 x)) (rotr 25 x).
Definition ssig0 (x : Z) : Z := Z.lxor (Z.lxor (rotr 7 x) (rotr 18 x)) (Z.shiftr x 3).
Definition ssig1 (x : Z) : Z := Z.lxor (Z.lxor (rotr 17 x) (rotr 19 x)) (Z.shiftr x 10).

(** The round constants and the initial hash value are defined by the
    standard as the leading 32 fractional bits of the cube roots and of
    the square roots of the first primes; they are computed that way. *)
Definition has_divisor (n : Z) (ps : list Z) : bool :=
  existsb (fun p => n mod p =? 0) ps.

Fixpoint primes_from (fuel : nat) (n : Z) (k : nat) (acc : list Z) : list Z :=
  match fuel, k with
  | O, _ | _, O => acc
  | S fuel', S k' =>
      if has_divisor n acc then primes_from fuel' (n + 1) k acc
      else primes_from fuel' (n + 1) k' (acc ++ [n])
  end.

Definition first_primes (k : nat) : list Z := primes_from 400 2 k [].

(** Integer cube root, one result bit at a time from bit [bits - 1] down. *)
Fixpoint icbrt_bits (bits : nat) (n r : Z) : Z :=
  match bits with
  | O => r
  | S b =>
      let c := r + 2 ^ Z.of_nat b in
      icbrt_bits b n (if c * c * c <=? n then c else r)
  end.

Definition frac_cbrt32 (p : Z) : Z := w32 (icbrt_bits 40 (p * 2 ^ 96) 0).
Definition frac_sqrt32 (p : Z) : Z := w32 (Z.sqrt (p * 2 ^ 64)).

Definition K : list Z := Eval vm_compute in map frac_cbrt32 (first_primes 64).
Definition H0 : list Z := Eval vm_compute in map frac_sqrt32 (first_primes 8).

(** Padding: a 1 bit, zero bits up to 56 mod 64 bytes, then the message
    length in bits as a 64-bit big-endian integer. *)
Fixpoint be_bytes (n : nat) (x : Z) : list Z :=
  match n with
  | O => []
  | S n' => (Z.shiftr x (8 * Z.of_nat n')) mod 256 :: be_bytes n' x
  end.

Definition pad (msg : list Z) : list Z :=
  let len := Z.of_nat (length msg) in
  let zeros := Z.to_nat ((55 - len) mod 64) in
  msg ++ [128] ++ repeat 0 zeros ++ be_bytes 8 (8 * len).

Fixpoint be_word (bs : list Z) (acc : Z) : Z :=
  match bs with
  | [] => acc
  | b :: bs' => be_word bs' (acc * 256 + b)
  end.

Fixpoint words_of (n : nat) (bs : list Z) : list Z :=
  match n with
  | O => []
  | S n' => be_word (take 4 bs) 0 :: words_of n' (drop 4 bs)
  end.

Fixpoint blocks_of (n : nat) (bs : list Z) : list (list Z) :=
  match n with
  | O => []
  | S n' => words_of 16 (take 64 bs) :: blocks_of n' (drop 64 bs)
  end.

(** Message schedule: 16 words of the block, then 48 derived words. *)
Fixpoint schedule (n : nat) (ws : list Z) : list Z :=
  match n with
  | O => ws
  | S n' =>
      let t := length ws in
      let at_ (k : nat) := nth (t - k)%nat ws 0 in
      schedule n'
        (ws ++ [add32 (add32 (ssig1 (at_ 2%nat)) (at_ 7%nat))
                      (add32 (ssig0 (at_ 15%nat)) (at_ 16%nat))])
  end.

Record state := State { sa : Z; sb : Z; sc : Z; sd : Z;
                        se : Z; sf : Z; sg : Z; sh : Z }.

Definition round (s : state) (kw : Z * Z) : state :=
  let t1 := add32 (add32 (add32 (add32 (sh s) (bsig1 (se s)))
                                (Ch (se s) (sf s) (sg s))) (fst kw)) (snd kw) in
  let t2 := add32 (bsig0 (sa s)) (Maj (sa s) (sb s) (sc s)) in
  State (add32 t1 t2) (sa s) (sb s) (sc s) (add32 (sd s) t1) (se s) (sf s) (sg s).

Definition compress (s : state) (block : list Z) : state :=
  let r := fold_left round (combine K (schedule 48 block)) s in
  State (add32 (sa s) (sa r)) (add32 (sb s) (sb r))
        (add32 (sc s) (sc r)) (add32 (sd s) (sd r))
        (add32 (se s) (se r)) (add32 (sf s) (sf r))
        (add32 (sg s) (sg r)) (add32 (sh s) (sh r)).

Definition init : state :=
  State (nth 0 H0 0) (nth 1 H0 0) (nth 2 H0 0) (nth 3 H0 0)
        (nth 4 H0 0) (nth 5 H0 0) (nth 6 H0 0) (nth 7 H0 0).

Definition state_words (s : state) : list Z :=
  [sa s; sb s; sc s; sd s; se s; sf s; sg s; sh s].

(** The digest as 32 bytes, most significant byte of each word first. *)
Definition digest_bytes (msg : list Z) : list Z :=
  let padded := pad msg in
  let blocks := blocks_of (length padded / 64)%nat padded in
  flat_map (be_bytes 4) (state_words (fold_left compress blocks init)).

End Sha256.

(** ** Host facility: strings, hexadecimal and decimal rendering *)

Definition bytes_of_string (s : string) : list Z :=
  map (fun c => Z.of_N (N_of_ascii c)) (String.list_ascii_of_string s).

Definition hex_digit (n : Z) : ascii :=
  nth (Z.to_nat (n mod 16)) (String.list_ascii_of_string "0123456789abcdef") "0"%char.

Definition hex_of_byte (b : Z) : list ascii :=
  [hex_digit (Z.shiftr b 4); hex_digit b].

Definition hex_of_bytes (bs : list Z) : string :=
  String.string_of_list_ascii (flat_map hex_of_byte bs).

Definition is_lower_hex (c : ascii) : bool :=
  let n := N_of_ascii c in
  ((48 <=? n) && (n <=? 57) || (97 <=? n) && (n <=? 102))%N.

(** [createHash('sha256').update(s).digest('hex')] *)
Definition sha256_hex (s : string) : string :=
  hex_of_bytes (Sha256.digest_bytes (bytes_of_string s)).

(** The decimal numeral of an integer. *)
Definition decimal (n : Z) : string :=
  NilZero.string_of_int (Z.to_int n).

(** Numbers are integers throughout this development; a JavaScript Number
    holds 53 significant bits, so an integer literal stands for the Number
    nearest to it, ties going to the even significand. *)
Definition round_double (y : Z) : Z :=
  let bits := Z.log2 y + 1 in
  if bits <=? 53 then y
  else
    let shift := bits - 53 in
    let q := Z.shiftr y shift in
    let rem := y - Z.shiftl q shift in
    let half := 2 ^ (shift - 1) in
    let up := (half <? rem) || ((rem =? half) && Z.odd q) in
    Z.shiftl (if up then q + 1 else q) shift.

Definition digit_count (x : Z) : Z := Z.of_nat (String.length (decimal x)).

(** Number::toString looks for the fewest significant digits that still
    denote the Number [x]: with [k] digits kept out of [nd], the two
    multiples of [10^(nd-k)] around [x] are tried, the nearer one first. *)
Fixpoint shortest_from (fuel : nat) (k nd x : Z) : Z :=
  match fuel with
  | O => x
  | S fuel' =>
      let p := 10 ^ (nd - k) in
      let lo := (x / p) * p in
      let hi := lo + p in
      let lo_ok := (0 <? lo) && (round_double lo =? x) in
      let hi_ok := round_double hi =? x in
      if lo_ok && hi_ok then
        if x - lo <? hi - x then lo
        else if hi - x <? x - lo then hi
        else if Z.even (x / p) then lo else hi
      else if lo_ok then lo
      else if hi_ok then hi
      else shortest_from fuel' (k + 1) nd x
  end.

Definition shortest (x : Z) : Z :=
  shortest_from (Z.to_nat (digit_count x)) 1 (digit_count x) x.

Fixpoint strip_zeros (rev_digits : list ascii) : list ascii :=
  match rev_digits with
  | c :: rest => if Ascii.eqb c "0" then strip_zeros rest else rev_digits
  | [] => []
  end.

(** [d.ddde+x], or [de+x] for a single significant digit. *)
Definition exponent_form (y : Z) : string :=
  let ds := String.list_ascii_of_string (decimal y) in
  let significant := rev (strip_zeros (rev ds)) in
  match significant with
  | [] => "0"
  | d :: rest =>
      String d (match rest with
                | [] => ""
                | _ => String "." (String.string_of_list_ascii rest)
                end)
      +:+ "e+" +:+ decimal (digit_count y - 1)
  end.

(** The text of a positive Number: the digits followed by zeros up to 21
    digits, the exponent form beyond. *)
Definition String_of_finite (x : Z) : string :=
  if 2 ^ 1024 <=? x then "Infinity"
  else
    let y := shortest x in
    if digit_count y <=? 21 then decimal y else exponent_form y.

(** [String(n)] for a number.  Below 2^53 every integer is a Number whose
    shortest digits are its own decimal numeral. *)
Definition String_of_number (n : Z) : string :=
  if Z.abs n <? 2 ^ 53 then decimal n
  else if n <? 0 then "-" +:+ String_of_finite (round_double (- n))
  else String_of_finite (round_double n).

Definition ascii_lower (c : ascii) : ascii :=
  let n := N_of_ascii c in
  if ((65 <=? n) && (n <=? 90))%N then ascii_of_N (n + 32) else c.

Fixpoint string_lower (s : string) : string :=
  match s with
  | EmptyString => EmptyString
  | String c s' => String (ascii_lower c) (string_lower s')
  end.

Fixpoint join (sep : string) (parts : list string) : string :=
  match parts with
  | [] => ""
  | [p] => p
  | p :: rest => p +:+ sep +:+ join sep rest
  end.

(** ** JavaScript values, errors and completions *)

(** The values that cross the wire.  A JavaScript value that may also be
    [undefined] is an [option JSON], with [None] for [undefined]. *)
#[warnings="-register-all"]
Inductive JSON : Type :=
| JNull
| JBool (b : bool)
| JNum (n : Z)
| JStr (s : string)
| JArr (items : list JSON)
| JObj (fields : list (string * JSON)).

(** [JSON.parse] and [JSON.stringify] are supplied by the host.  [None]
    from [JSON_parse] stands for the [SyntaxError] it throws. *)
Class JsonCodec := {
  JSON_parse : string -> option JSON;
  JSON_stringify : JSON -> string
}.

(** What ECMAScript promises of the pair on JSON values. *)
Class JsonCodecLaws `{JsonCodec} := {
  parse_stringify : forall v : JSON, JSON_parse (JSON_stringify v) = Some v
}.

Inductive JsError : Type :=
| Error (message : string)
| TypeError (message : string)
| SyntaxError (message : string).

Inductive Completion (A : Type) : Type :=
| Normal (a : A)
| Throw (e : JsError).
Arguments Normal {A} a.
Arguments Throw {A} e.

(** JavaScript truthiness of a value that is a string or [undefined]. *)
Definition truthy (v : option string) : bool :=
  match v with
  | Some s => negb (String.eqb s "")
  | None => false
  end.

(** [a && b] on such values: [a] when [a] is falsy, [b] otherwise. *)
Definition js_and (a b : option string) : option string :=
  if truthy a then b else a.

(** Own-property read [o[k]] on a parsed object. *)
Fixpoint obj_get (k : string) (fields : list (string * JSON)) : option JSON :=
  match fields with
  | [] => None
  | (k', v) :: rest => if String.eqb k k' then Some v else obj_get k rest
  end.

(** [v[0]]: throws on [null], reads element 0 of an array, property "0"
    of an object, the first character of a string, and is [undefined] on
    the other primitives. *)
Definition js_index0 (v : JSON) : Completion (option JSON) :=
  match v with
  | JNull => Throw (TypeError "Cannot read properties of null (reading '0')")
  | JArr items => Normal (head items)
  | JObj fields => Normal (obj_get "0" fields)
  | JStr (String c _) => Normal (Some (JStr (String c "")))
  | JStr EmptyString | JBool _ | JNum _ => Normal None
  end.

(** [x?.result]: [undefined] when [x] is [undefined] or [null], else the
    property read. *)
Definition js_opt_result (x : option JSON) : option JSON :=
  match x with
  | Some (JObj fields) => obj_get "result" fields
  | _ => None
  end.

(** ** The network: [fetch] *)

Record HttpRequest := {
  req_url : string;
  req_method : string;
  req_headers : list (string * string);
  req_body : string
}.

Record HttpResponse := {
  resp_status : Z;
  resp_text : string
}.

(** [response.ok] *)
Definition resp_ok (r : HttpResponse) : bool :=
  (200 <=? resp_status r) && (resp_status r <=? 299).

Inductive FetchOutcome : Type :=
| Rejected (e : JsError)
| Responded (r : HttpResponse).

(** Whatever answers the requests: a state and a deterministic reaction
    to each request. *)
Class Remote := {
  remote_state : Type;
  serve : HttpRequest -> remote_state -> FetchOutcome * remote_state
}.

(** The part of the world the client touches: the remote side and the
    log of requests that left the process. *)
Record World `{Remote} := {
  remote : remote_state;
  sent : list HttpRequest
}.

Definition M `{Remote} (A : Type) : Type := World -> Completion A * World.

Definition ret `{Remote} {A} (a : A) : M A := fun w => (Normal a, w).

Definition throw `{Remote} {A} (e : JsError) : M A := fun w => (Throw e, w).

Definition bind `{Remote} {A B} (c : M A) (k : A -> M B) : M B :=
  fun w =>
    match c w with
    | (Normal a, w') => k a w'
    | (Throw e, w') => (Throw e, w')
    end.

Definition try_catch `{Remote} {A} (c : M A) (handler : JsError -> M A) : M A :=
  fun w =>
    match c w with
    | (Normal a, w') => (Normal a, w')
    | (Throw e, w') => handler e w'
    end.

Definition lift `{Remote} {A} (c : Completion A) : M A := fun w => (c, w).

Notation "x <- c1 ;; c2" := (bind c1 (fun x => c2))
  (at level 100, c1 at next level, right associativity).

Definition fetch `{Remote} (req : HttpRequest) : M HttpResponse :=
  fun w =>
    let '(outcome, r') := serve req (remote w) in
    let w' := {| remote := r'; sent := sent w ++ [req] |} in
    match outcome with
    | Rejected e => (Throw e, w')
    | Responded r => (Normal r, w')
    end.

(** [response.json()] *)
Definition resp_json `{JsonCodec} `{Remote} (r : HttpResponse) : M JSON :=
  match JSON_parse (resp_text r) with
  | Some v => ret v
  | None => throw (SyntaxError "Unexpected token in JSON")
  end.

(** ** [src/shared/lib/redis.ts] *)

(** The two module-level constants, read from the environment when the
    module is loaded. *)
Record RedisModule := {
  REDIS_URL : option string;
  REDIS_TOKEN : option string
}.

Definition load_redis (env : gmap string string) : RedisModule :=
  {| REDIS_URL := env !! "UPSTASH_REDIS_REST_URL";
     REDIS_TOKEN := env !! "UPSTASH_REDIS_REST_TOKEN" |}.

Definition hasRedisConfig (m : RedisModule) : bool :=
  truthy (js_and (REDIS_URL m) (REDIS_TOKEN m)).

(** An element of a [RedisCommand]. *)
Inductive Token : Type :=
| TStr (s : string)
| TNum (n : Z).

Definition String_of (t : Token) : string :=
  match t with
  | TStr s => s
  | TNum n => String_of_number n
  end.

Definition json_of_payload (payload : list (list string)) : JSON :=
  JArr (map (fun command => JArr (map JStr command)) payload).

Section Redis.
Context `{JsonCodec} `{Remote} (m : RedisModule).

Definition redisFetch (body : JSON) : M JSON :=
  match REDIS_URL m, REDIS_TOKEN m with
  | Some url, Some token =>
      if negb (truthy (Some url)) || negb (truthy (Some token)) then
        throw (Error "Redis config missing.")
      else
        response <- fetch {| req_url := url +:+ "/pipeline";
                             req_method := "POST";
                             req_headers :=
                               [("Authorization", "Bearer " +:+ token);
                                ("Content-Type", "application/json")];
                             req_body := JSON_stringify body |} ;;
        if negb (resp_ok response) then
          let text := resp_text response in
          throw (Error ("Redis request failed: "
                        +:+ String_of_number (resp_status response)
                        +:+ " " +:+ text))
        else resp_json response
  | _, _ => throw (Error "Redis config missing.")
  end.

Definition redisPipeline (commands : list (list Token)) : M JSON :=
  let payload := map (fun command => map String_of command) commands in
  redisFetch (json_of_payload payload).

Definition redisGetJson (key : string) : M JSON :=
  results <- redisPipeline [[TStr "GET"; TStr key]] ;;
  first <- lift (js_index0 results) ;;
  let result := js_opt_result first in
  match result with
  | None | Some JNull => ret JNull
  | Some (JStr s) =>
      match JSON_parse s with
      | Some v => ret v
      | None => throw (SyntaxError "Unexpected token in JSON")
      end
  | Some v => ret v
  end.

Definition redisSetJson (key : string) (value : JSON) (ttlSeconds : Z) : M unit :=
  let payload := JSON_stringify value in
  _ <- redisPipeline [[TStr "SET"; TStr key; TStr payload; TStr "EX"; TNum ttlSeconds]] ;;
  ret tt.

(** ** [src/unnamed/part_007] *)

Definition buildHashedCacheKey (prefix rawKey : string) : string :=
  let hash := sha256_hex rawKey in
  prefix +:+ ":" +:+ hash.

Definition getRedisCachedJson (prefix rawKey : string) : M JSON :=
  if negb (hasRedisConfig m) then ret JNull
  else
    try_catch (redisGetJson (buildHashedCacheKey prefix rawKey))
              (fun _ => ret JNull).

Definition setRedisCachedJson (prefix rawKey : string) (value : JSON)
    (ttlSeconds : Z) : M unit :=
  if negb (hasRedisConfig m) then ret tt
  else
    try_catch (redisSetJson (buildHashedCacheKey prefix rawKey) value ttlSeconds)
              (fun _ => ret tt).

End Redis.

(** ** [src/unnamed/part_002]: the health-check route *)

Record Request := {
  headers : list (string * string)
}.

(** [headers.get(name)]: names compare without regard to ASCII case, the
    values of repeated headers are joined, and an absent header is [null]. *)
Definition headers_get (hs : list (string * string)) (name : string) : option string :=
  match List.filter (fun h => String.eqb (string_lower (fst h)) (string_lower name)) hs with
  | [] => None
  | found => Some (join ", " (map snd found))
  end.

Record NextResponse := {
  json_body : JSON;
  status : Z
}.

(** What the handler reads from outside its own file while it serves a
    request: the live environment, the loaded redis module, the snapshots
    the two limiters' [getStats()] return, and the clock rendered by
    [new Date().toISOString()]. *)
Record Host := {
  process_env : gmap string string;
  redis_module : RedisModule;
  translate_stats : JSON;
  analyze_stats : JSON;
  now_iso : string
}.

(** [token === secret]; [null] and [undefined] are never strictly equal,
    and never reach the comparison in [GET]. *)
Definition strict_eq (a b : option string) : bool :=
  match a, b with
  | Some x, Some y => String.eqb x y
  | _, _ => false
  end.

Definition generic_ok : NextResponse :=
  {| json_body := JObj [("status", JStr "ok")]; status := 200 |}.

Definition GET (h : Host) (request : Request) : NextResponse :=
  let secret := process_env h !! "HEALTHCHECK_SECRET" in
  let token := headers_get (headers request) "x-healthcheck-token" in
  let isAuthorized := truthy secret && truthy token && strict_eq token secret in
  if negb (truthy secret) || negb isAuthorized then generic_ok
  else
    let translateStats := translate_stats h in
    let analyzeStats := analyze_stats h in
    {| json_body :=
         JObj [("status", JStr "ok");
               ("redisEnabled", JBool (hasRedisConfig (redis_module h)));
               ("rateLimiters",
                JObj [("translate", translateStats); ("analyze", analyzeStats)]);
               ("timestamp", JStr (now_iso h))];
       status := 200 |}.

(** A response discloses operational state when its body has a
    [rateLimiters] or a [redisEnabled] property. *)
Definition discloses (r : NextResponse) : bool :=
  match json_body r with
  | JObj fields =>
      bool_decide (is_Some (obj_get "rateLimiters" fields))
      || bool_decide (is_Some (obj_get "redisEnabled" fields))
  | _ => false
  end.

(** The process: the environment can be written after start-up, the
    constants of an already loaded module cannot. *)
Inductive EnvWrite : Type :=
| SetEnv (name value : string)
| DeleteEnv (name : string).

Definition boot (env : gmap string string) (tstats astats : JSON) (now : string) : Host :=
  {| process_env := env;
     redis_module := load_redis env;
     translate_stats := tstats;
     analyze_stats := astats;
     now_iso := now |}.

Definition write_env (h : Host) (wr : EnvWrite) : Host :=
  {| process_env :=
       match wr with
       | SetEnv name value => <[name := value]> (process_env h)
       | DeleteEnv name => delete name (process_env h)
       end;
     redis_module := redis_module h;
     translate_stats := translate_stats h;
     analyze_stats := analyze_stats h;
     now_iso := now_iso h |}.

(** ** Environment: the store behind the REST endpoint

    The remote side as its wire protocol describes it: a POST to
    [<endpoint>/pipeline] with a bearer token carries a JSON array of
    commands, each an array of strings; the answer is a JSON array with
    one [{result}] or [{error}] object per command, in order.  Entries keep
    their value and the expiry they were written with. *)

Fixpoint strings_of_json (items : list JSON) : option (list string) :=
  match items with
  | [] => Some []
  | JStr s :: rest => cons s <$> strings_of_json rest
  | _ :: _ => None
  end.

Fixpoint commands_of_json (items : list JSON) : option (list (list string)) :=
  match items with
  | [] => Some []
  | JArr command :: rest =>
      match strings_of_json command, commands_of_json rest with
      | Some c, Some cs => Some (c :: cs)
      | _, _ => None
      end
  | _ :: _ => None
  end.

Definition parse_int (s : string) : option Z :=
  Z.of_int <$> NilZero.int_of_string s.

Definition store_exec (command : list string) (db : gmap string (string * Z))
    : JSON * gmap string (string * Z) :=
  match command with
  | [c; k] =>
      if String.eqb c "GET" then
        (JObj [("result", match db !! k with
                          | Some (v, _) => JStr v
                          | None => JNull
                          end)], db)
      else (JObj [("error", JStr "ERR unknown command")], db)
  | [c; k; v; ex; ttl] =>
      if String.eqb c "SET" && String.eqb ex "EX" then
        match parse_int ttl with
        | Some n =>
            if 0 <? n then (JObj [("result", JStr "OK")], <[k := (v, n)]> db)
            else (JObj [("error", JStr "ERR invalid expire time in 'set' command")], db)
        | None => (JObj [("error", JStr "ERR value is not an integer or out of range")], db)
        end
      else (JObj [("error", JStr "ERR unknown command")], db)
  | _ => (JObj [("error", JStr "ERR unknown command")], db)
  end.

Fixpoint store_run (commands : list (list string)) (db : gmap string (string * Z))
    : list JSON * gmap string (string * Z) :=
  match commands with
  | [] => ([], db)
  | c :: rest =>
      let '(r, db1) := store_exec c db in
      let '(rs, db2) := store_run rest db1 in
      (r :: rs, db2)
  end.

Definition store_serve `{JsonCodec} (endpoint token : string) (req : HttpRequest)
    (db : gmap string (string * Z)) : FetchOutcome * gmap string (string * Z) :=
  if negb (String.eqb (req_url req) (endpoint +:+ "/pipeline")) then
    (Responded {| resp_status := 404; resp_text := "Not Found" |}, db)
  else if negb (bool_decide (headers_get (req_headers req) "authorization"
                             = Some ("Bearer " +:+ token))) then
    (Responded {| resp_status := 401; resp_text := "Unauthorized" |}, db)
  else
    match JSON_parse (req_body req) with
    | Some (JArr items) =>
        match commands_of_json items with
        | Some commands =>
            let '(results, db') := store_run commands db in
            (Responded {| resp_status := 200;
                          resp_text := JSON_stringify (JArr results) |}, db')
        | None => (Responded {| resp_status := 400; resp_text := "Bad Request" |}, db)
        end
    | _ => (Responded {| resp_status := 400; resp_text := "Bad Request" |}, db)
    end.

Definition store_remote `{JsonCodec} (endpoint token : string) : Remote :=
  {| remote_state := gmap string (string * Z);
     serve := store_serve endpoint token |}.

(** Remote sides that never serve a request: one answers every request
    with a fixed status and body, the other is out of reach. *)
Definition constant_remote (code : Z) (text : string) : Remote :=
  {| remote_state := unit;
     serve := fun _ _ => (Responded {| resp_status := code; resp_text := text |}, tt) |}.

Definition unreachable_remote : Remote :=
  {| remote_state := unit;
     serve := fun _ _ => (Rejected (TypeError "fetch failed"), tt) |}.

(** ** The limiter imported from [@/shared/lib/rateLimit] *)

Module RateLimit.

(** Modelled from the spec: the rate limiter ([@/shared/lib/rateLimit],
    imported by the health-check route) is not among the sources.  This is
    the per-[(identity, bucket)] state machine of the specification's
    component design: Uninitialized, Active and Expired windows, counted
    against the configured limit. *)
Record RateWindow := {
  identity : string;
  bucket : string;
  windowStart : Z;
  count : Z;
  limit : Z;
  windowLengthSeconds : Z
}.

(** Modelled from the spec: the configuration of one limiter instance,
    its bucket with [{limit, windowLengthSeconds}]. *)
Record Config := {
  cfg_bucket : string;
  cfg_limit : Z;
  cfg_windowLengthSeconds : Z
}.

(** Modelled from the spec: the allow/deny decision with its retry-after
    hint. *)
Inductive Decision : Type :=
| Allow
| Deny (retryAfter : Z).

(** Modelled from the spec: a window is Active at [now] while
    [now - windowStart < windowLengthSeconds], and Expired afterwards. *)
Definition active (w : RateWindow) (now : Z) : bool :=
  now - windowStart w <? windowLengthSeconds w.

(** Modelled from the spec: the first request of a window creates it with
    [count = 1] and [windowStart = now]. *)
Definition fresh_window (cfg : Config) (id : string) (now : Z) : RateWindow :=
  {| identity := id; bucket := cfg_bucket cfg; windowStart := now; count := 1;
     limit := cfg_limit cfg; windowLengthSeconds := cfg_windowLengthSeconds cfg |}.

(** Modelled from the spec: a request in an Active window increments its
    [count]. *)
Definition bump (w : RateWindow) : RateWindow :=
  {| identity := identity w; bucket := bucket w; windowStart := windowStart w;
     count := count w + 1; limit := limit w;
     windowLengthSeconds := windowLengthSeconds w |}.

(** Modelled from the spec: allow while [count <= limit], otherwise deny
    with [retryAfter = windowLengthSeconds - (now - windowStart)]. *)
Definition decision_of (w : RateWindow) (now : Z) : Decision :=
  if count w <=? limit w then Allow
  else Deny (windowLengthSeconds w - (now - windowStart w)).

(** Modelled from the spec: [check] with the remote-store backend, where
    the increment and the decision are one atomic step on the shared
    window of the [(identity, bucket)] pair. *)
Definition check (cfg : Config) (id : string) (now : Z)
    (st : gmap (string * string) RateWindow)
    : Decision * gmap (string * string) RateWindow :=
  let w :=
    match st !! (id, cfg_bucket cfg) with
    | Some w0 => if active w0 now then bump w0 else fresh_window cfg id now
    | None => fresh_window cfg id now
    end in
  (decision_of w now, <[(id, cfg_bucket cfg) := w]> st).

(** Modelled from the spec: a sequence of [check] requests of one identity,
    at the given times. *)
Fixpoint check_all (cfg : Config) (id : string) (times : list Z)
    (st : gmap (string * string) RateWindow)
    : list Decision * gmap (string * string) RateWindow :=
  match times with
  | [] => ([], st)
  | now :: rest =>
      let '(d, st1) := check cfg id now st in
      let '(ds, st2) := check_all cfg id rest st1 in
      (d :: ds, st2)
  end.

(** Modelled from the spec: the pair is Uninitialized, or its window has
    Expired by [now]. *)
Definition no_active_window (cfg : Config) (id : string) (now : Z)
    (st : gmap (string * string) RateWindow) : Prop :=
  match st !! (id, cfg_bucket cfg) with
  | Some w0 => active w0 now = false
  | None => True
  end.

End RateLimit.

(** ** A host JSON codec

    A printer and a parser for JSON texts over the values above, without
    insignificant white space, as [JSON.stringify] writes them. *)

Module JsonText.

Definition dquote : ascii := ascii_of_N 34.
Definition backslash : ascii := ascii_of_N 92.

Definition chars (s : string) : list ascii := String.list_ascii_of_string s.

Definition hex_value (c : ascii) : option N :=
  let n := N_of_ascii c in
  if ((48 <=? n) && (n <=? 57))%N then Some (n - 48)%N
  else if ((97 <=? n) && (n <=? 102))%N then Some (n - 87)%N
  else if ((65 <=? n) && (n <=? 70))%N then Some (n - 55)%N
  else None.

(** Quotation marks, reverse solidi and control characters are escaped. *)
Definition escape_char (c : ascii) : list ascii :=
  if Ascii.eqb c dquote then [backslash; dquote]
  else if Ascii.eqb c backslash then [backslash; backslash]
  else if (N_of_ascii c <? 32)%N then
    backslash :: chars "u00" ++ hex_of_byte (Z.of_N (N_of_ascii c))
  else [c].

Definition print_string (s : string) : list ascii :=
  dquote :: flat_map escape_char (chars s) ++ [dquote].

Definition is_num_char (c : ascii) : bool :=
  let n := N_of_ascii c in
  (n =? 45)%N || ((48 <=? n) && (n <=? 57))%N.

Definition print_number (n : Z) : list ascii := chars (decimal n).

(** The remainder of an array after its first element, and of an object
    after its first member. *)
Definition print_more (pr : JSON -> list ascii) : list JSON -> list ascii :=
  fix more (l : list JSON) : list ascii :=
    match l with
    | [] => chars "]"
    | y :: l' => chars "," ++ pr y ++ more l'
    end.

Definition print_more_fields (pr : JSON -> list ascii)
    : list (string * JSON) -> list ascii :=
  fix more (l : list (string * JSON)) : list ascii :=
    match l with
    | [] => chars "}"
    | (k, y) :: l' => chars "," ++ print_string k ++ chars ":" ++ pr y ++ more l'
    end.

Fixpoint print (v : JSON) : list ascii :=
  match v with
  | JNull => chars "null"
  | JBool true => chars "true"
  | JBool false => chars "false"
  | JNum n => print_number n
  | JStr s => print_string s
  | JArr [] => chars "[]"
  | JArr (x :: rest) => chars "[" ++ print x ++ print_more print rest
  | JObj [] => chars "{}"
  | JObj ((k, x) :: rest) =>
      chars "{" ++ print_string k ++ chars ":" ++ print x
      ++ print_more_fields print rest
  end.

(** The characters of a string literal after its opening quotation mark,
    up to the closing one. *)
Fixpoint parse_chars (cs : list ascii) : option (list ascii * list ascii) :=
  match cs with
  | [] => None
  | c :: cs1 =>
      if Ascii.eqb c dquote then Some ([], cs1)
      else if Ascii.eqb c backslash then
        match cs1 with
        | [] => None
        | e :: cs2 =>
            if Ascii.eqb e "u" then
              match cs2 with
              | h1 :: h2 :: h3 :: h4 :: cs3 =>
                  match hex_value h1, hex_value h2, hex_value h3, hex_value h4 with
                  | Some 0%N, Some 0%N, Some a, Some b =>
                      match parse_chars cs3 with
                      | Some (s, r) => Some (ascii_of_N (16 * a + b) :: s, r)
                      | None => None
                      end
                  | _, _, _, _ => None
                  end
              | _ => None
              end
            else
              let plain :=
                if Ascii.eqb e dquote then Some dquote
                else if Ascii.eqb e backslash then Some backslash
                else if Ascii.eqb e "/" then Some "/"%char
                else if Ascii.eqb e "b" then Some (ascii_of_N 8)
                else if Ascii.eqb e "f" then Some (ascii_of_N 12)
                else if Ascii.eqb e "n" then Some (ascii_of_N 10)
                else if Ascii.eqb e "r" then Some (ascii_of_N 13)
                else if Ascii.eqb e "t" then Some (ascii_of_N 9)
                else None in
              match plain, parse_chars cs2 with
              | Some d, Some (s, r) => Some (d :: s, r)
              | _, _ => None
              end
        end
      else
        match parse_chars cs1 with
        | Some (s, r) => Some (c :: s, r)
        | None => None
        end
  end.

Definition parse_string (cs : list ascii) : option (string * list ascii) :=
  match parse_chars cs with
  | Some (s, r) => Some (String.string_of_list_ascii s, r)
  | None => None
  end.

Fixpoint span_num (cs : list ascii) : list ascii * list ascii :=
  match cs with
  | c :: cs' =>
      if is_num_char c then
        let '(ds, r) := span_num cs' in (c :: ds, r)
      else ([], cs)
  | [] => ([], [])
  end.

Definition parse_number (cs : list ascii) : option (Z * list ascii) :=
  let '(ds, r) := span_num cs in
  match parse_int (String.string_of_list_ascii ds) with
  | Some n => Some (n, r)
  | None => None
  end.

Fixpoint starts_with (p cs : list ascii) : option (list ascii) :=
  match p, cs with
  | [], _ => Some cs
  | a :: p', c :: cs' => if Ascii.eqb a c then starts_with p' cs' else None
  | _ :: _, [] => None
  end.

Fixpoint parse_value (fuel : nat) (cs : list ascii) : option (JSON * list ascii) :=
  match fuel with
  | O => None
  | S fuel' =>
      match cs with
      | [] => None
      | c :: cs1 =>
          if is_num_char c then
            match parse_number cs with
            | Some (n, r) => Some (JNum n, r)
            | None => None
            end
          else if Ascii.eqb c dquote then
            match parse_string cs1 with
            | Some (s, r) => Some (JStr s, r)
            | None => None
            end
          else if Ascii.eqb c "n" then
            match starts_with (chars "ull") cs1 with
            | Some r => Some (JNull, r)
            | None => None
            end
          else if Ascii.eqb c "t" then
            match starts_with (chars "rue") cs1 with
            | Some r => Some (JBool true, r)
            | None => None
            end
          else if Ascii.eqb c "f" then
            match starts_with (chars "alse") cs1 with
            | Some r => Some (JBool false, r)
            | None => None
            end
          else if Ascii.eqb c "[" then
            match cs1 with
            | c1 :: cs2 =>
                if Ascii.eqb c1 "]" then Some (JArr [], cs2)
                else
                  match parse_value fuel' cs1 with
                  | Some (x, r1) =>
                      match parse_items fuel' r1 with
                      | Some (xs, r2) => Some (JArr (x :: xs), r2)
                      | None => None
                      end
                  | None => None
                  end
            | [] => None
            end
          else if Ascii.eqb c "{" then
            match cs1 with
            | c1 :: cs2 =>
                if Ascii.eqb c1 "}" then Some (JObj [], cs2)
                else
                  match parse_field fuel' cs1 with
                  | Some (kx, r1) =>
                      match parse_fields fuel' r1 with
                      | Some (kxs, r2) => Some (JObj (kx :: kxs), r2)
                      | None => None
                      end
                  | None => None
                  end
            | [] => None
            end
          else None
      end
  end
with parse_items (fuel : nat) (cs : list ascii) : option (list JSON * list ascii) :=
  match fuel with
  | O => None
  | S fuel' =>
      match cs with
      | c :: cs1 =>
          if Ascii.eqb c "]" then Some ([], cs1)
          else if Ascii.eqb c "," then
            match parse_value fuel' cs1 with
            | Some (x, r1) =>
                match parse_items fuel' r1 with
                | Some (xs, r2) => Some (x :: xs, r2)
                | None => None
                end
            | None => None
            end
          else None
      | [] => None
      end
  end
with parse_field (fuel : nat) (cs : list ascii) : option ((string * JSON) * list ascii) :=
  match fuel with
  | O => None
  | S fuel' =>
      match cs with
      | c :: cs1 =>
          if Ascii.eqb c dquote then
            match parse_string cs1 with
            | Some (k, c2 :: r1) =>
                if Ascii.eqb c2 ":" then
                  match parse_value fuel' r1 with
                  | Some (x, r2) => Some ((k, x), r2)
                  | None => None
                  end
                else None
            | _ => None
            end
          else None
      | [] => None
      end
  end
with parse_fields (fuel : nat) (cs : list ascii) : option (list (string * JSON) * list ascii) :=
  match fuel with
  | O => None
  | S fuel' =>
      match cs with
      | c :: cs1 =>
          if Ascii.eqb c "}" then Some ([], cs1)
          else if Ascii.eqb c "," then
            match parse_field fuel' cs1 with
            | Some (kx, r1) =>
                match parse_fields fuel' r1 with
                | Some (kxs, r2) => Some (kx :: kxs, r2)
                | None => None
                end
            | None => None
            end
          else None
      | [] => None
      end
  end.

Definition stringify (v : JSON) : string := String.string_of_list_ascii (print v).

Definition parse (s : string) : option JSON :=
  match parse_value (S (String.length s)) (chars s) with
  | Some (v, []) => Some v
  | _ => None
  end.

(** The text that follows does not continue a number. *)
Definition no_num_head (tl : list ascii) : Prop :=
  match tl with
  | [] => True
  | c :: _ => is_num_char c = false
  end.

(** The parser reads the printed text of [v] back, whatever follows it. *)
Definition reads_back (v : JSON) : Prop :=
  forall (fuel : nat) (tl : list ascii),
    (length (print v) < fuel)%nat -> no_num_head tl ->
    parse_value fuel (print v ++ tl) = Some (v, tl).

Definition codec : JsonCodec :=
  {| JSON_parse := parse; JSON_stringify := stringify |}.

End JsonText.

(** ** Vocabulary of the statements *)

(** The caller presents the configured secret. *)
Definition presents_secret (h : Host) (request : Request) : Prop :=
  exists s, process_env h !! "HEALTHCHECK_SECRET" = Some s /\ s ≠ "" /\
            headers_get (headers request) "x-healthcheck-token" = Some s.

Definition detailed_body (h : Host) : JSON :=
  JObj [("status", JStr "ok");
        ("redisEnabled", JBool (hasRedisConfig (redis_module h)));
        ("rateLimiters",
         JObj [("translate", translate_stats h); ("analyze", analyze_stats h)]);
        ("timestamp", JStr (now_iso h))].


(** The one request [redisPipeline] sends for a batch of commands. *)
Definition pipeline_request `{JsonCodec} (url token : string)
    (commands : list (list Token)) : HttpRequest :=
  {| req_url := url +:+ "/pipeline";
     req_method := "POST";
     req_headers := [("Authorization", "Bearer " +:+ token);
                     ("Content-Type", "application/json")];
     req_body := JSON_stringify
                   (json_of_payload (map (fun command => map String_of command) commands)) |}.

(** The completion of [JSON.parse(s)]. *)
Definition parse_completion `{JsonCodec} (s : string) : Completion JSON :=
  match JSON_parse s with
  | Some v => Normal v
  | None => Throw (SyntaxError "Unexpected token in JSON")
  end.

Definition configured (url token : string) : RedisModule :=
  {| REDIS_URL := Some url; REDIS_TOKEN := Some token |}.

(** ** [src/features/Resources/lib/counts.ts] *)

Module Resources.

(** A resource, with the properties this file reads.  The declarations
    live in [../types], which is not among the sources; identifiers,
    difficulty levels, price types and platforms are strings there. *)
Record Resource := {
  category : string;
  subcategory : string;
  difficulty : string;
  priceType : string;
  platforms : list string
}.

(** A subcategory and a category: the [id], and the remaining properties,
    which the functions below only copy. *)
Record Subcategory := {
  sub_id : string;
  sub_other : JSON
}.

Record Category := {
  cat_id : string;
  cat_other : JSON;
  subcategories : list Subcategory
}.

(** [{...subcategory, resourceCount}] and
    [{...category, resourceCount, subcategoriesWithCount}]. *)
Record SubcategoryWithCount := {
  swc_subcategory : Subcategory;
  swc_resourceCount : Z
}.

Record CategoryWithCount := {
  cwc_category : Category;
  cwc_resourceCount : Z;
  subcategoriesWithCount : list SubcategoryWithCount
}.

(** A [Map<string, number>]: the entries in insertion order.  [set] on a
    key that is present replaces its value in place. *)
Fixpoint Map_get (m : list (string * Z)) (k : string) : option Z :=
  match m with
  | [] => None
  | (k', v) :: m' => if String.eqb k' k then Some v else Map_get m' k
  end.

Fixpoint Map_set (m : list (string * Z)) (k : string) (v : Z) : list (string * Z) :=
  match m with
  | [] => [(k, v)]
  | (k', v') :: m' =>
      if String.eqb k' k then (k, v) :: m' else (k', v') :: Map_set m' k v
  end.

(** [x || 0] for a number or [undefined]. *)
Definition or_zero (x : option Z) : Z :=
  match x with
  | Some n => if n =? 0 then 0 else n
  | None => 0
  end.

Definition getCategoryResourceCounts (resources : list Resource) : list (string * Z) :=
  fold_left
    (fun counts resource =>
       let currentCount := or_zero (Map_get counts (category resource)) in
       Map_set counts (category resource) (currentCount + 1))
    resources [].

Definition getSubcategoryResourceCounts (resources : list Resource)
    (categoryId : option string) : list (string * Z) :=
  let filteredResources :=
    if truthy categoryId
    then List.filter (fun r => strict_eq (Some (category r)) categoryId) resources
    else resources in
  fold_left
    (fun counts resource =>
       let currentCount := or_zero (Map_get counts (subcategory resource)) in
       Map_set counts (subcategory resource) (currentCount + 1))
    filteredResources [].

Definition getResourceCountForCategory (resources : list Resource)
    (categoryId : string) : Z :=
  Z.of_nat (length (List.filter (fun r => String.eqb (category r) categoryId) resources)).

Definition getResourceCountForSubcategory (resources : list Resource)
    (categoryId subcategoryId : string) : Z :=
  Z.of_nat (length (List.filter
                      (fun r => String.eqb (category r) categoryId
                                && String.eqb (subcategory r) subcategoryId)
                      resources)).

Definition enrichCategoriesWithCounts (categories : list Category)
    (resources : list Resource) : list CategoryWithCount :=
  let categoryCounts := getCategoryResourceCounts resources in
  map (fun category =>
         let subcategoryCounts :=
           getSubcategoryResourceCounts resources (Some (cat_id category)) in
         let subcategoriesWithCount :=
           map (fun subcategory =>
                  {| swc_subcategory := subcategory;
                     swc_resourceCount :=
                       or_zero (Map_get subcategoryCounts (sub_id subcategory)) |})
               (subcategories category) in
         {| cwc_category := category;
            cwc_resourceCount := or_zero (Map_get categoryCounts (cat_id category));
            subcategoriesWithCount := subcategoriesWithCount |})
      categories.

Definition getTotalResourceCount (resources : list Resource) : Z :=
  Z.of_nat (length resources).

(** The inner loop of [validateCategoryCounts]: [false] when it returns
    from the function, [true] when it runs to its end. *)
Fixpoint subcategory_counts_hold (categoryId : string)
    (subs : list SubcategoryWithCount) (resources : list Resource) : bool :=
  match subs with
  | [] => true
  | sub :: rest =>
      let actualSubCount :=
        Z.of_nat (length (List.filter
                            (fun r => String.eqb (category r) categoryId
                                      && String.eqb (subcategory r)
                                           (sub_id (swc_subcategory sub)))
                            resources)) in
      if negb (swc_resourceCount sub =? actualSubCount) then false
      else subcategory_counts_hold categoryId rest resources
  end.

Fixpoint validateCategoryCounts (categories : list CategoryWithCount)
    (resources : list Resource) : bool :=
  match categories with
  | [] => true
  | cat :: rest =>
      let id := cat_id (cwc_category cat) in
      let actualCount :=
        Z.of_nat (length (List.filter (fun r => String.eqb (category r) id) resources)) in
      if negb (cwc_resourceCount cat =? actualCount) then false
      else if negb (subcategory_counts_hold id (subcategoriesWithCount cat) resources)
           then false
           else validateCategoryCounts rest resources
  end.

Record FilterOption := {
  value : string;
  count : Z
}.

Record FilterOptions := {
  difficulties : list FilterOption;
  priceTypes : list FilterOption;
  platformOptions : list FilterOption
}.

(** [r.platforms.includes(platform)] *)
Definition includes (l : list string) (x : string) : bool :=
  existsb (fun y => String.eqb y x) l.

(** The three constant lists come from [../types]; they are arguments
    here. *)
Definition getFilterOptions (DIFFICULTY_LEVELS PRICE_TYPES PLATFORMS : list string)
    (resources : list Resource) : FilterOptions :=
  {| difficulties :=
       map (fun level =>
              {| value := level;
                 count := Z.of_nat (length (List.filter
                            (fun r => String.eqb (difficulty r) level) resources)) |})
           DIFFICULTY_LEVELS;
     priceTypes :=
       map (fun type =>
              {| value := type;
                 count := Z.of_nat (length (List.filter
                            (fun r => String.eqb (priceType r) type) resources)) |})
           PRICE_TYPES;
     platformOptions :=
       map (fun platform =>
              {| value := platform;
                 count := Z.of_nat (length (List.filter
                            (fun r => includes (platforms r) platform) resources)) |})
           PLATFORMS |}.

(** The sum of the values of a map, and of the counts of options. *)
Definition Map_total (m : list (string * Z)) : Z :=
  fold_right Z.add 0 (map snd m).

Definition options_total (os : list FilterOption) : Z :=
  fold_right Z.add 0 (map count os).

(** Every count of an enriched category is the number of resources it
    stands for. *)
Definition counts_exact (resources : list Resource) (c : CategoryWithCount) : Prop :=
  cwc_resourceCount c = getResourceCountForCategory resources (cat_id (cwc_category c))
  /\ Forall (fun s => swc_resourceCount s =
                      getResourceCountForSubcategory resources
                        (cat_id (cwc_category c)) (sub_id (swc_subcategory s)))
            (subcategoriesWithCount c).

(** The counting loop the two map builders share, from any map. *)
Definition tally (key : Resource -> string) (resources : list Resource)
    (counts : list (string * Z)) : list (string * Z) :=
  fold_left
    (fun counts resource =>
       Map_set counts (key resource) (or_zero (Map_get counts (key resource)) + 1))
    resources counts.

(** The number of resources a predicate selects. *)
Definition how_many (p : Resource -> bool) (resources : list Resource) : Z :=
  Z.of_nat (length (List.filter p resources)).

End Resources.

(** ** [src/scripts/i18n/validate-translations.js]: the key comparison *)

Module Translations.

(** [prefix ? `${prefix}.${key}` : key] *)
Definition full_key (prefix key : string) : string :=
  if truthy (Some prefix) then prefix +:+ "." +:+ key else key.

(** What one property adds to the keys: the keys of its value under the
    full key when the value is an object that is neither [null] nor an
    array, the full key itself otherwise. *)
Fixpoint property_keys (value : JSON) (fullKey : string) : list string :=
  match value with
  | JObj fields =>
      (fix entries (l : list (string * JSON)) : list string :=
         match l with
         | [] => []
         | (key, inner) :: rest =>
             property_keys inner (full_key fullKey key) ++ entries rest
         end) fields
  | _ => [fullKey]
  end.

(** [getKeys(obj, prefix)] on the entries of an object, in the order
    [Object.entries] yields them. *)
Fixpoint getKeys (obj : list (string * JSON)) (prefix : string) : list string :=
  match obj with
  | [] => []
  | (key, value) :: rest =>
      property_keys value (full_key prefix key) ++ getKeys rest prefix
  end.

(** [new Set(keys).has(key)] *)
Definition Set_has (keys : list string) (key : string) : bool :=
  existsb (fun k => String.eqb k key) keys.

(** The two lists [validateNamespace] reports for a language. *)
Definition missing (referenceKeys langKeys : list string) : list string :=
  List.filter (fun key => negb (Set_has langKeys key)) referenceKeys.

Definition extra (referenceKeys langKeys : list string) : list string :=
  List.filter (fun key => negb (Set_has referenceKeys key)) langKeys.

(** [LANGUAGES], as the script declares it. *)
Definition LANGUAGES : list string := ["en"; "es"].

(** What [validateNamespace] finds for one language: no file
    ([existsSync] is false), a file [loadJSON] could not read or parse (it
    sets [hasErrors] and returns [null]), or the parsed content. *)
Inductive LocaleFile : Type :=
| NoFile
| Unreadable
| Loaded (data : JSON).

(** Truthiness of a parsed value, for [if (data)]. *)
Definition js_truthy (v : JSON) : bool :=
  match v with
  | JNull => false
  | JBool b => b
  | JNum n => negb (n =? 0)
  | JStr s => negb (String.eqb s "")
  | JArr _ | JObj _ => true
  end.

(** [Object.entries(data)] for a truthy value: the members of an object,
    the elements of an array and the characters of a string under their
    indices, nothing for a number or a boolean. *)
Definition Object_entries (data : JSON) : list (string * JSON) :=
  match data with
  | JObj fields => fields
  | JArr items => imap (fun i x => (decimal (Z.of_nat i), x)) items
  | JStr s =>
      imap (fun i c => (decimal (Z.of_nat i), JStr (String c "")))
           (String.list_ascii_of_string s)
  | _ => []
  end.

(** [keysByLanguage[lang] || []], with the latest assignment first. *)
Fixpoint keys_of (keysByLanguage : list (string * list string)) (lang : string)
    : list string :=
  match keysByLanguage with
  | [] => []
  | (l, keys) :: rest => if String.eqb l lang then keys else keys_of rest lang
  end.

(** One turn of the loading loop, on [hasErrors] and [keysByLanguage]. *)
Definition load_language (files : string -> LocaleFile)
    (run : bool * list (string * list string)) (lang : string)
    : bool * list (string * list string) :=
  match files lang with
  | NoFile => (true, run.2)
  | Unreadable => (true, run.2)
  | Loaded data =>
      if js_truthy data
      then (run.1, (lang, getKeys (Object_entries data) "") :: run.2)
      else run
  end.

(** One turn of the comparing loop, on [hasErrors]. *)
Definition compare_language (referenceKeys : list string)
    (keysByLanguage : list (string * list string)) (hasErrors : bool)
    (lang : string) : bool :=
  if String.eqb lang "en" then hasErrors
  else
    let langKeys := keys_of keysByLanguage lang in
    let missingKeys := missing referenceKeys langKeys in
    let extraKeys := extra referenceKeys langKeys in
    if (0 <? length missingKeys)%nat || (0 <? length extraKeys)%nat then
      let hasErrors1 := if (0 <? length missingKeys)%nat then true else hasErrors in
      if (0 <? length extraKeys)%nat then true else hasErrors1
    else hasErrors.

(** [validateNamespace(namespace)] as a change of [hasErrors], given the
    files of the namespace.  An empty reference sets the flag and returns
    before any language is compared. *)
Definition validateNamespace (files : string -> LocaleFile) (hasErrors : bool) : bool :=
  let loaded := fold_left (load_language files) LANGUAGES (hasErrors, []) in
  let referenceKeys := keys_of loaded.2 "en" in
  if (length referenceKeys =? 0)%nat then true
  else fold_left (compare_language referenceKeys loaded.2) LANGUAGES loaded.1.


(** A path of property names from an object to a value that is not
    itself such an object. *)
Inductive leaf_at : list (string * JSON) -> list string -> Prop :=
| leaf_here (fields : list (string * JSON)) (name : string) (value : JSON) :
    (name, value) ∈ fields -> (forall inner, value ≠ JObj inner) ->
    leaf_at fields [name]
| leaf_below (fields : list (string * JSON)) (name : string)
    (inner : list (string * JSON)) (path : list string) :
    (name, JObj inner) ∈ fields -> leaf_at inner path ->
    leaf_at fields (name :: path).

(** The keys of a value under a full key are the full keys of the paths
    to its leaves. *)
Definition keys_by_paths (value : JSON) : Prop :=
  forall (fullKey k : string),
    k ∈ property_keys value fullKey <->
    ((forall inner, value ≠ JObj inner) /\ k = fullKey)
    \/ (exists inner path, value = JObj inner /\ leaf_at inner path
                           /\ k = fold_left full_key path fullKey).

End Translations.

(** ** The configuration drift check appended to [counts.ts] *)

Module Drift.

(** [a.every((value, index) => value === b[index])], from [index] on. *)
Fixpoint every_matches (a b : list string) (index : nat) : bool :=
  match a with
  | [] => true
  | value :: rest =>
      match b !! index with
      | Some other => String.eqb value other
      | None => false
      end && every_matches rest b (S index)
  end.

(** [arraysEqual(a, b)], where [None] is a [null] argument. *)
Definition arraysEqual (a b : option (list string)) : bool :=
  match a, b with
  | Some a, Some b =>
      if negb (length a =? length b)%nat then false
      else every_matches a b 0
  | _, _ => false
  end.

(** How [main] ends: it prints the success line, or [fail] prints a
    message and exits with status 1. *)
Inductive Outcome : Type :=
| Passed
| Failed (message : string).

(** [!xs || xs.length === 0] *)
Definition unparsed (xs : option (list string)) : bool :=
  match xs with
  | Some l => (length l =? 0)%nat
  | None => true
  end.

(** [main], on what the four parsers returned. *)
Definition main (routingLocales requestNamespaces validatorLanguages
    validatorNamespaces : option (list string)) : Outcome :=
  if unparsed routingLocales then
    Failed "Could not parse locales from core/i18n/routing.ts"
  else if unparsed requestNamespaces then
    Failed "Could not parse namespaces from core/i18n/request.ts"
  else if unparsed validatorLanguages then
    Failed "Could not parse LANGUAGES from validate-translations.js"
  else if unparsed validatorNamespaces then
    Failed "Could not parse NAMESPACES from validate-translations.js"
  else if negb (arraysEqual routingLocales validatorLanguages) then
    Failed ("Locale mismatch. routing.ts: ["
            +:+ join ", " (default [] routingLocales)
            +:+ "] vs validate-translations.js: ["
            +:+ join ", " (default [] validatorLanguages) +:+ "]")
  else if negb (arraysEqual requestNamespaces validatorNamespaces) then
    Failed ("Namespace mismatch. request.ts: ["
            +:+ join ", " (default [] requestNamespaces)
            +:+ "] vs validate-translations.js: ["
            +:+ join ", " (default [] validatorNamespaces) +:+ "]")
  else Passed.

End Drift.
(** * Properties *)

(** ** Strings and truthiness *)

Lemma eqb_empty_false (s : string) : s ≠ "" -> String.eqb s "" = false.
Proof. intros Hs. by apply String.eqb_neq. Qed.

Lemma truthy_Some (s : string) : truthy (Some s) = true <-> s ≠ "".
Proof.
  unfold truthy. destruct (String.eqb_spec s ""); simpl; split; congruence.
Qed.

Lemma truthy_spec (v : option string) :
  truthy v = true <-> exists s, v = Some s /\ s ≠ "".
Proof.
  destruct v as [s|].
  - rewrite truthy_Some. split; [eauto | intros (s' & [= ->] & Hs); done].
  - simpl. split; [done | intros (s' & [=] & _)].
Qed.

Lemma strict_eq_spec (a b : option string) :
  strict_eq a b = true <-> exists s, a = Some s /\ b = Some s.
Proof.
  destruct a as [x|], b as [y|]; simpl;
    try (split; [done | intros (s & [=] & [=])]).
  destruct (String.eqb_spec x y) as [->|Hne]; split; try done; eauto.
  intros (s & [= ->] & [= ->]). done.
Qed.

Lemma string_of_list_ascii_length (l : list ascii) :
  String.length (String.string_of_list_ascii l) = length l.
Proof. induction l as [|c l IH]; simpl; congruence. Qed.

(** ** The configuration gate *)

Lemma hasRedisConfig_spec (m : RedisModule) :
  hasRedisConfig m = true <->
  exists url token,
    REDIS_URL m = Some url /\ url ≠ "" /\ REDIS_TOKEN m = Some token /\ token ≠ "".
Proof.
  unfold hasRedisConfig, js_and.
  destruct (truthy (REDIS_URL m)) eqn:Hu.
  - apply truthy_spec in Hu as (url & Hurl & Hne). rewrite truthy_spec. split.
    + intros (token & Ht & Htne). eauto 10.
    + intros (url' & token & _ & _ & Ht & Htne). eauto.
  - rewrite Hu. split; [done|].
    intros (url & token & Hurl & Hne & _).
    assert (truthy (REDIS_URL m) = true) by (apply truthy_spec; eauto). congruence.
Qed.

Lemma write_env_redis_module (h : Host) (wr : EnvWrite) :
  redis_module (write_env h wr) = redis_module h.
Proof. reflexivity. Qed.

Lemma writes_keep_redis_module (writes : list EnvWrite) (h : Host) :
  redis_module (foldl write_env h writes) = redis_module h.
Proof.
  revert h. induction writes as [|wr writes IH]; intros h; simpl; [done|].
  by rewrite IH, write_env_redis_module.
Qed.

(** C7. [hasRedisConfig()] is true exactly when the endpoint URL and the
    token were both present and non-empty in the environment the module was
    loaded with, and keeps that answer whatever is written to the
    environment afterwards. *)
Theorem hasRedisConfig_gate (env : gmap string string) (tstats astats : JSON)
    (now : string) (writes : list EnvWrite) :
  (hasRedisConfig (redis_module (boot env tstats astats now)) = true <->
   exists url token,
     env !! "UPSTASH_REDIS_REST_URL" = Some url /\ url ≠ "" /\
     env !! "UPSTASH_REDIS_REST_TOKEN" = Some token /\ token ≠ "")
  /\ hasRedisConfig (redis_module (foldl write_env (boot env tstats astats now) writes))
     = hasRedisConfig (redis_module (boot env tstats astats now)).
Proof.
  split.
  - apply hasRedisConfig_spec.
  - by rewrite writes_keep_redis_module.
Qed.

(** ** The health-check route *)

Lemma GET_cases (h : Host) (request : Request) :
  (presents_secret h request /\
   GET h request = {| json_body := detailed_body h; status := 200 |})
  \/ (~ presents_secret h request /\ GET h request = generic_ok).
Proof.
  unfold GET, presents_secret.
  set (secret := process_env h !! "HEALTHCHECK_SECRET").
  set (token := headers_get (headers request) "x-healthcheck-token").
  destruct (truthy secret) eqn:Hs; simpl.
  - apply truthy_spec in Hs as (s & Hsec & Hne).
    destruct (truthy token) eqn:Ht; simpl.
    + destruct (strict_eq token secret) eqn:He; simpl.
      * left. apply strict_eq_spec in He as (s' & Htok & Hsec').
        split; [|done]. exists s. split_and!; try done. congruence.
      * right. split; [|done]. intros (s' & Hsec' & _ & Htok).
        assert (strict_eq token secret = true) by (apply strict_eq_spec; eauto).
        congruence.
    + right. split; [|done]. intros (s' & Hsec' & Hne' & Htok).
      assert (truthy token = true) by (apply truthy_spec; eauto). congruence.
  - right. split; [|done]. intros (s & Hsec & Hne & _).
    assert (truthy secret = true) by (apply truthy_spec; eauto). congruence.
Qed.

(** C8. The response carries the limiter statistics and the redis flag
    exactly when a non-empty secret is configured and the token header
    equals it; every other request gets the body [{status: "ok"}] with
    status 200 and nothing else. *)
Theorem GET_gating (h : Host) (request : Request) :
  (discloses (GET h request) = true <-> presents_secret h request)
  /\ (presents_secret h request ->
      GET h request = {| json_body := detailed_body h; status := 200 |})
  /\ (~ presents_secret h request ->
      GET h request = {| json_body := JObj [("status", JStr "ok")]; status := 200 |}).
Proof.
  destruct (GET_cases h request) as [[Hp ->]|[Hn ->]].
  - split_and!; [|done|done]. split; [done|]. intros _. reflexivity.
  - split_and!; [|done|done]. split; [|done]. by vm_compute.
Qed.

(** C9. Without a configured secret (unset or empty) the response does not
    depend on the request, nor on the state of the host: it is always the
    generic body, whatever token is presented. *)
Theorem GET_noninterference (h1 h2 : Host) (request1 request2 : Request) :
  (process_env h1 !! "HEALTHCHECK_SECRET" = None \/
   process_env h1 !! "HEALTHCHECK_SECRET" = Some "") ->
  (process_env h2 !! "HEALTHCHECK_SECRET" = None \/
   process_env h2 !! "HEALTHCHECK_SECRET" = Some "") ->
  GET h1 request1 = GET h2 request2
  /\ GET h1 request1 = {| json_body := JObj [("status", JStr "ok")]; status := 200 |}.
Proof.
  intros H1 H2.
  assert (Hgen : forall h request,
             (process_env h !! "HEALTHCHECK_SECRET" = None \/
              process_env h !! "HEALTHCHECK_SECRET" = Some "") ->
             GET h request = generic_ok).
  { intros h request Hs. unfold GET. by destruct Hs as [-> | ->]. }
  rewrite (Hgen h1 request1 H1), (Hgen h2 request2 H2). done.
Qed.

(** ** The digest and the cache key *)

Lemma be_bytes_length (n : nat) (x : Z) : length (Sha256.be_bytes n x) = n.
Proof. induction n as [|n IH]; simpl; congruence. Qed.

Lemma digest_bytes_length (msg : list Z) : length (Sha256.digest_bytes msg) = 32%nat.
Proof.
  unfold Sha256.digest_bytes, Sha256.state_words. cbn [flat_map].
  rewrite !length_app, !be_bytes_length. reflexivity.
Qed.

Lemma hex_digit_lower (n : Z) : is_lower_hex (hex_digit n) = true.
Proof.
  unfold hex_digit.
  assert (Hlt : (Z.to_nat (n mod 16) < 16)%nat) by (pose proof (Z.mod_pos_bound n 16); lia).
  generalize dependent (Z.to_nat (n mod 16)). intros k Hlt.
  do 16 (destruct k as [|k]; [reflexivity|]). lia.
Qed.

Lemma hex_of_bytes_length (bs : list Z) :
  String.length (hex_of_bytes bs) = (2 * length bs)%nat.
Proof.
  unfold hex_of_bytes. rewrite string_of_list_ascii_length.
  induction bs as [|b bs IH]; simpl; [done|]. rewrite IH. lia.
Qed.

Lemma hex_of_bytes_lower (bs : list Z) :
  Forall (fun c => is_lower_hex c = true)
         (String.list_ascii_of_string (hex_of_bytes bs)).
Proof.
  unfold hex_of_bytes. rewrite String.list_ascii_of_string_of_list_ascii.
  induction bs as [|b bs IH]; simpl; [constructor|].
  repeat constructor; auto using hex_digit_lower.
Qed.

Lemma string_app_length (a b : string) :
  String.length (a +:+ b) = (String.length a + String.length b)%nat.
Proof. induction a as [|c a IH]; [reflexivity|]. simpl. by rewrite <- IH. Qed.

(** The digest agrees with the published test vectors of the standard. *)
Example sha256_hex_empty :
  sha256_hex "" = "e3b0c44298fc1c149afbf4c8996fb92427ae41e4649b934ca495991b7852b855".
Proof. vm_compute. reflexivity. Qed.

Example sha256_hex_abc :
  sha256_hex "abc" = "ba7816bf8f01cfea414140de5dae2223b00361a396177a9cb410ff61f20015ad".
Proof. vm_compute. reflexivity. Qed.

Example sha256_hex_two_blocks :
  sha256_hex "abcdbcdecdefdefgefghfghighijhijkijkljklmklmnlmnomnopnopq"
  = "248d6a61d20638b8e5c026930c3e6039a33ce45964ff2167f6ecedd419db06c1".
Proof. vm_compute. reflexivity. Qed.

(** The message that is hashed determines the raw key: the bytes of a
    string determine the string, and the padded message determines the
    bytes, through the length written at its end. *)
Lemma bytes_of_string_inj (s1 s2 : string) :
  bytes_of_string s1 = bytes_of_string s2 -> s1 = s2.
Proof.
  unfold bytes_of_string. intros Heq.
  rewrite <- (String.string_of_list_ascii_of_string s1),
          <- (String.string_of_list_ascii_of_string s2).
  f_equal. revert Heq.
  generalize (String.list_ascii_of_string s1) (String.list_ascii_of_string s2).
  induction l as [|c l IH]; intros [|c' l'] Heq; try done.
  cbn [map] in Heq. injection Heq as Hc Hl. f_equal; [|by apply IH].
  apply N2Z.inj in Hc.
  by rewrite <- (ascii_N_embedding c), <- (ascii_N_embedding c'), Hc.
Qed.

Lemma be_word_be_bytes (n : nat) (x acc : Z) :
  Sha256.be_word (Sha256.be_bytes n x) acc
  = acc * 256 ^ Z.of_nat n + x mod 256 ^ Z.of_nat n.
Proof.
  revert acc. induction n as [|n IH]; intros acc.
  - cbn [Sha256.be_bytes Sha256.be_word]. rewrite Z.pow_0_r, Z.mod_1_r. lia.
  - cbn [Sha256.be_bytes Sha256.be_word]. rewrite IH.
    rewrite Nat2Z.inj_succ, Z.pow_succ_r by lia.
    rewrite Z.shiftr_div_pow2 by lia.
    replace (2 ^ (8 * Z.of_nat n)) with (256 ^ Z.of_nat n)
      by (rewrite Z.pow_mul_r by lia; reflexivity).
    assert (Hp : 0 < 256 ^ Z.of_nat n) by (apply Z.pow_pos_nonneg; lia).
    rewrite (Z.mul_comm 256 (256 ^ Z.of_nat n)).
    rewrite (Z.rem_mul_r x (256 ^ Z.of_nat n) 256) by lia. lia.
Qed.

Lemma be_bytes_8_inj (x y : Z) :
  Sha256.be_bytes 8 x = Sha256.be_bytes 8 y -> x mod 2 ^ 64 = y mod 2 ^ 64.
Proof.
  intros Heq.
  pose proof (be_word_be_bytes 8 x 0) as Hx.
  pose proof (be_word_be_bytes 8 y 0) as Hy.
  rewrite Heq in Hx. rewrite Hx in Hy.
  change (256 ^ Z.of_nat 8) with (2 ^ 64) in Hy. lia.
Qed.

Lemma pad_inj (m1 m2 : list Z) : Sha256.pad m1 = Sha256.pad m2 -> m1 = m2.
Proof.
  unfold Sha256.pad. intros Heq.
  rewrite !(app_assoc _ _ (Sha256.be_bytes 8 _)), !(app_assoc m1), !(app_assoc m2) in Heq.
  apply app_inj_2 in Heq as [Hbody Hlen]; [|by rewrite !be_bytes_length].
  apply be_bytes_8_inj in Hlen.
  assert (Hsizes : length ((m1 ++ [128]) ++ repeat 0 (Z.to_nat ((55 - Z.of_nat (length m1)) mod 64)))
                   = length ((m2 ++ [128]) ++ repeat 0 (Z.to_nat ((55 - Z.of_nat (length m2)) mod 64))))
    by (by rewrite Hbody).
  rewrite !length_app, !repeat_length in Hsizes. cbn [length] in Hsizes.
  pose proof (Z.mod_pos_bound (55 - Z.of_nat (length m1)) 64 ltac:(lia)) as Hz1.
  pose proof (Z.mod_pos_bound (55 - Z.of_nat (length m2)) 64 ltac:(lia)) as Hz2.
  assert (Hsame : length m1 = length m2).
  { pose proof (Z.div_mod (8 * Z.of_nat (length m1)) (2 ^ 64) ltac:(lia)) as H1.
    pose proof (Z.div_mod (8 * Z.of_nat (length m2)) (2 ^ 64) ltac:(lia)) as H2.
    rewrite Hlen in H1.
    assert (Hclose : - 64 < Z.of_nat (length m1) - Z.of_nat (length m2) < 64) by lia.
    assert (Hq : (8 * Z.of_nat (length m1)) / 2 ^ 64 = (8 * Z.of_nat (length m2)) / 2 ^ 64)
      by lia.
    lia. }
  rewrite <- !app_assoc in Hbody.
  by apply app_inj_1 in Hbody as [? _].
Qed.

(** C3. The cache key is the prefix, a colon and the lowercase hexadecimal
    SHA-256 digest of the raw key: a suffix of exactly 64 characters of
    [0-9a-f], computed from a padded message that determines the raw key,
    and equal to the digests the standard publishes for its test messages;
    it is a function of the pair alone. *)
Theorem buildHashedCacheKey_shape (prefix rawKey : string) :
  buildHashedCacheKey prefix rawKey
    = prefix +:+ ":"
      +:+ hex_of_bytes (Sha256.digest_bytes (bytes_of_string rawKey))
  /\ String.length (sha256_hex rawKey) = 64%nat
  /\ Forall (fun c => is_lower_hex c = true)
            (String.list_ascii_of_string (sha256_hex rawKey))
  /\ String.length (buildHashedCacheKey prefix rawKey)
     = (String.length prefix + 65)%nat
  /\ (forall prefix' rawKey',
        (prefix', rawKey') = (prefix, rawKey) ->
        buildHashedCacheKey prefix' rawKey' = buildHashedCacheKey prefix rawKey)
  /\ (forall rawKey',
        Sha256.pad (bytes_of_string rawKey') = Sha256.pad (bytes_of_string rawKey) ->
        rawKey' = rawKey)
  /\ buildHashedCacheKey prefix ""
     = prefix
       +:+ ":e3b0c44298fc1c149afbf4c8996fb92427ae41e4649b934ca495991b7852b855"
  /\ buildHashedCacheKey prefix "abc"
     = prefix
       +:+ ":ba7816bf8f01cfea414140de5dae2223b00361a396177a9cb410ff61f20015ad"
  /\ buildHashedCacheKey prefix
       "abcdbcdecdefdefgefghfghighijhijkijkljklmklmnlmnomnopnopq"
     = prefix
       +:+ ":248d6a61d20638b8e5c026930c3e6039a33ce45964ff2167f6ecedd419db06c1".
Proof.
  assert (Hlen : String.length (sha256_hex rawKey) = 64%nat).
  { unfold sha256_hex. by rewrite hex_of_bytes_length, digest_bytes_length. }
  split_and!.
  - reflexivity.
  - exact Hlen.
  - apply hex_of_bytes_lower.
  - unfold buildHashedCacheKey. rewrite !string_app_length, Hlen. simpl. lia.
  - by intros prefix' rawKey' [= -> ->].
  - intros rawKey' Hpad. by apply bytes_of_string_inj, pad_inj.
  - unfold buildHashedCacheKey. by rewrite sha256_hex_empty.
  - unfold buildHashedCacheKey. by rewrite sha256_hex_abc.
  - unfold buildHashedCacheKey. by rewrite sha256_hex_two_blocks.
Qed.

Lemma buildHashedCacheKey_shape_witness :
  buildHashedCacheKey "translate" "abc"
  = "translate:ba7816bf8f01cfea414140de5dae2223b00361a396177a9cb410ff61f20015ad".
Proof.
  destruct (buildHashedCacheKey_shape "translate" "abc")
    as (_ & _ & _ & _ & _ & _ & _ & Habc & _).
  exact Habc.
Defined.

Lemma GET_noninterference_witness :
  GET (boot ∅ JNull JNull "") {| headers := [] |}
  = GET (boot {[ "HEALTHCHECK_SECRET" := "" ]} (JNum 7) JNull "")
        {| headers := [("X-Healthcheck-Token", "")] |}
  /\ GET (boot ∅ JNull JNull "") {| headers := [] |}
     = {| json_body := JObj [("status", JStr "ok")]; status := 200 |}.
Proof.
  apply GET_noninterference.
  - left. reflexivity.
  - right. reflexivity.
Defined.

(** ** The pipelined client *)

Section Client.
Context `{JsonCodec} `{Remote}.

Ltac run := unfold bind, ret, throw, try_catch, lift in *.

Lemma redisFetch_unconfigured (m : RedisModule) (body : JSON) (w : World) :
  hasRedisConfig m = false ->
  redisFetch m body w = (Throw (Error "Redis config missing."), w).
Proof.
  unfold hasRedisConfig, js_and, redisFetch. intros Hcfg.
  destruct (REDIS_URL m) as [url|]; [|done].
  destruct (REDIS_TOKEN m) as [token|]; [|done].
  destruct (truthy (Some url)) eqn:Hu; cbn [negb orb]; [|done].
  rewrite Hcfg. done.
Qed.

Lemma redisFetch_configured (m : RedisModule) (body : JSON) (w : World)
    (url token : string) :
  REDIS_URL m = Some url -> url ≠ "" ->
  REDIS_TOKEN m = Some token -> token ≠ "" ->
  redisFetch m body w =
    (response <- fetch {| req_url := url +:+ "/pipeline";
                          req_method := "POST";
                          req_headers := [("Authorization", "Bearer " +:+ token);
                                          ("Content-Type", "application/json")];
                          req_body := JSON_stringify body |} ;;
     if negb (resp_ok response) then
       throw (Error ("Redis request failed: "
                     +:+ String_of_number (resp_status response)
                     +:+ " " +:+ resp_text response))
     else resp_json response) w.
Proof.
  intros Hu Hune Ht Htne. unfold redisFetch. rewrite Hu, Ht. cbv beta iota.
  apply truthy_Some in Hune. apply truthy_Some in Htne. by rewrite Hune, Htne.
Qed.

Lemma resp_json_world (r : HttpResponse) (w : World) : (resp_json r w).2 = w.
Proof. unfold resp_json. by destruct (JSON_parse (resp_text r)). Qed.

(** C5. With the store configured, [redisPipeline] sends exactly one
    request, whatever the outcome; when the response to it does not have a
    success status, it throws an [Error] whose message holds the status
    code and the body text of the response. *)
Theorem redisPipeline_transport_failure (m : RedisModule)
    (commands : list (list Token)) (w : World) (url token : string) :
  REDIS_URL m = Some url -> url ≠ "" ->
  REDIS_TOKEN m = Some token -> token ≠ "" ->
  sent (redisPipeline m commands w).2 = sent w ++ [pipeline_request url token commands]
  /\ forall r remote',
       serve (pipeline_request url token commands) (remote w) = (Responded r, remote') ->
       resp_ok r = false ->
       redisPipeline m commands w =
         (Throw (Error ("Redis request failed: "
                        +:+ String_of_number (resp_status r)
                        +:+ " " +:+ resp_text r)),
          {| remote := remote';
             sent := sent w ++ [pipeline_request url token commands] |}).
Proof.
  intros Hu Hune Ht Htne. unfold redisPipeline.
  rewrite (redisFetch_configured m _ w url token Hu Hune Ht Htne).
  unfold pipeline_request. run. unfold fetch.
  match goal with |- context [serve ?rq (remote w)] =>
    destruct (serve rq (remote w)) as [[e|r] remote1] eqn:Hserve end.
  - split; [done|]. intros r remote' [=].
  - split.
    + destruct (negb (resp_ok r)); [done|]. by rewrite resp_json_world.
    + intros r' remote' [= <- <-] Hok. by rewrite Hok.
Qed.

(** C6. [redisGetJson] returns [null] when [results[0]?.result] is [null],
    the value of [JSON.parse] on it when it is a string, and the result
    itself, unchanged, when it is any other value. *)
Theorem redisGetJson_semantics (m : RedisModule) (key : string) (w w1 : World)
    (results : JSON) (first : option JSON) :
  redisPipeline m [[TStr "GET"; TStr key]] w = (Normal results, w1) ->
  js_index0 results = Normal first ->
  (js_opt_result first = Some JNull ->
   redisGetJson m key w = (Normal JNull, w1))
  /\ (forall s, js_opt_result first = Some (JStr s) ->
      redisGetJson m key w = (parse_completion s, w1))
  /\ (forall v, js_opt_result first = Some v ->
      v ≠ JNull -> (forall s, v ≠ JStr s) ->
      redisGetJson m key w = (Normal v, w1)).
Proof.
  intros Hpipe Hfirst. unfold redisGetJson. run. rewrite Hpipe, Hfirst.
  split_and!.
  - by intros ->.
  - intros s ->. unfold parse_completion. by destruct (JSON_parse s).
  - intros v -> Hnull Hstr. destruct v; try done. by destruct (Hstr s).
Qed.

(** C10. On a degenerate answer (an empty array, or a first entry that is
    [null] or has no [result] property) [redisGetJson] returns [null] and
    does not fail. *)
Theorem redisGetJson_degenerate (m : RedisModule) (key : string) (w w1 : World)
    (results : JSON) :
  redisPipeline m [[TStr "GET"; TStr key]] w = (Normal results, w1) ->
  (results = JArr [] \/
   exists entry rest, results = JArr (entry :: rest) /\
                      js_opt_result (Some entry) = None) ->
  redisGetJson m key w = (Normal JNull, w1).
Proof.
  intros Hpipe Hshape. unfold redisGetJson. run. rewrite Hpipe.
  destruct Hshape as [-> | (entry & rest & -> & Hnone)]; cbn [js_index0 head].
  - done.
  - by rewrite Hnone.
Qed.

(** ** The hashed cache *)

Lemma redisGetJson_unconfigured (m : RedisModule) (key : string) (w : World) :
  hasRedisConfig m = false ->
  redisGetJson m key w = (Throw (Error "Redis config missing."), w).
Proof.
  intros Hcfg. unfold redisGetJson, redisPipeline. run.
  by rewrite redisFetch_unconfigured.
Qed.

Lemma redisSetJson_unconfigured (m : RedisModule) (key : string) (value : JSON)
    (ttl : Z) (w : World) :
  hasRedisConfig m = false ->
  redisSetJson m key value ttl w = (Throw (Error "Redis config missing."), w).
Proof.
  intros Hcfg. unfold redisSetJson, redisPipeline. run.
  by rewrite redisFetch_unconfigured.
Qed.

(** C1. Unconfigured, the cache reads [null] and writes nothing, and the
    world (remote side and request log) is as before; when the client
    throws, the read is [null] and the write returns; in every case both
    functions complete normally. *)
Theorem cache_fail_open (m : RedisModule) (prefix rawKey : string) (value : JSON)
    (ttlSeconds : Z) (w : World) :
  (hasRedisConfig m = false ->
   getRedisCachedJson m prefix rawKey w = (Normal JNull, w)
   /\ setRedisCachedJson m prefix rawKey value ttlSeconds w = (Normal tt, w))
  /\ (forall e w',
        redisGetJson m (buildHashedCacheKey prefix rawKey) w = (Throw e, w') ->
        getRedisCachedJson m prefix rawKey w = (Normal JNull, w'))
  /\ (forall e w',
        redisSetJson m (buildHashedCacheKey prefix rawKey) value ttlSeconds w
          = (Throw e, w') ->
        setRedisCachedJson m prefix rawKey value ttlSeconds w = (Normal tt, w'))
  /\ (exists v w', getRedisCachedJson m prefix rawKey w = (Normal v, w'))
  /\ (exists w', setRedisCachedJson m prefix rawKey value ttlSeconds w = (Normal tt, w')).
Proof.
  unfold getRedisCachedJson, setRedisCachedJson. run.
  destruct (hasRedisConfig m) eqn:Hcfg; simpl.
  - split_and!.
    + done.
    + by intros e w' ->.
    + by intros e w' ->.
    + destruct (redisGetJson m _ w) as [[v|e] w']; eauto.
    + destruct (redisSetJson m _ value ttlSeconds w) as [[[]|e] w']; eauto.
  - split_and!; eauto.
    + intros e w'. rewrite redisGetJson_unconfigured by done. by intros [= _ ->].
    + intros e w'. rewrite redisSetJson_unconfigured by done. by intros [= _ ->].
Qed.

End Client.

(** *** The client against remote sides that fail or answer oddly *)

Lemma redisPipeline_transport_failure_witness :
  @redisPipeline JsonText.codec (constant_remote 500 "Internal Server Error")
    (configured "https://store.example" "secret") [[TStr "GET"; TStr "k"]]
    (@Build_World (constant_remote 500 "Internal Server Error") tt [])
  = (Throw (Error "Redis request failed: 500 Internal Server Error"),
     @Build_World (constant_remote 500 "Internal Server Error") tt
       [@pipeline_request JsonText.codec "https://store.example" "secret"
          [[TStr "GET"; TStr "k"]]]).
Proof.
  destruct (@redisPipeline_transport_failure JsonText.codec
              (constant_remote 500 "Internal Server Error")
              (configured "https://store.example" "secret")
              [[TStr "GET"; TStr "k"]]
              (@Build_World (constant_remote 500 "Internal Server Error") tt [])
              "https://store.example" "secret")
    as [_ Hthrow]; [reflexivity | done | reflexivity | done |].
  rewrite (Hthrow {| resp_status := 500; resp_text := "Internal Server Error" |} tt);
    reflexivity.
Defined.

Lemma redisGetJson_semantics_witness :
  let answer := JsonText.stringify
                  (JArr [JObj [("result",
                                JStr (JsonText.stringify (JObj [("text", JStr "hola")])))]]) in
  @redisGetJson JsonText.codec (constant_remote 200 answer)
    (configured "https://store.example" "secret") "k"
    (@Build_World (constant_remote 200 answer) tt [])
  = (Normal (JObj [("text", JStr "hola")]),
     @Build_World (constant_remote 200 answer) tt
       [@pipeline_request JsonText.codec "https://store.example" "secret"
          [[TStr "GET"; TStr "k"]]]).
Proof.
  intros answer.
  destruct (@redisGetJson_semantics JsonText.codec (constant_remote 200 answer)
              (configured "https://store.example" "secret") "k"
              (@Build_World (constant_remote 200 answer) tt [])
              (@Build_World (constant_remote 200 answer) tt
                 [@pipeline_request JsonText.codec "https://store.example" "secret"
                    [[TStr "GET"; TStr "k"]]])
              (JArr [JObj [("result",
                            JStr (JsonText.stringify (JObj [("text", JStr "hola")])))]])
              (Some (JObj [("result",
                            JStr (JsonText.stringify (JObj [("text", JStr "hola")])))])))
    as (_ & Hstr & _); [vm_compute; reflexivity | reflexivity |].
  rewrite (Hstr (JsonText.stringify (JObj [("text", JStr "hola")]))); reflexivity.
Defined.

Lemma redisGetJson_degenerate_witness :
  let answer := JsonText.stringify (JArr []) in
  @redisGetJson JsonText.codec (constant_remote 200 answer)
    (configured "https://store.example" "secret") "k"
    (@Build_World (constant_remote 200 answer) tt [])
  = (Normal JNull,
     @Build_World (constant_remote 200 answer) tt
       [@pipeline_request JsonText.codec "https://store.example" "secret"
          [[TStr "GET"; TStr "k"]]]).
Proof.
  intros answer.
  apply (@redisGetJson_degenerate JsonText.codec (constant_remote 200 answer)
           (configured "https://store.example" "secret") "k" _ _ (JArr [])).
  - vm_compute. reflexivity.
  - left. reflexivity.
Defined.

(** A first entry without a [result] property, and a [null] first entry. *)
Example redisGetJson_error_entry :
  let answer := JsonText.stringify (JArr [JObj [("error", JStr "ERR unknown command")]]) in
  (@redisGetJson JsonText.codec (constant_remote 200 answer)
     (configured "https://store.example" "secret") "k"
     (@Build_World (constant_remote 200 answer) tt [])).1
  = Normal JNull.
Proof. vm_compute. reflexivity. Qed.

Example redisGetJson_null_entry :
  let answer := JsonText.stringify (JArr [JNull]) in
  (@redisGetJson JsonText.codec (constant_remote 200 answer)
     (configured "https://store.example" "secret") "k"
     (@Build_World (constant_remote 200 answer) tt [])).1
  = Normal JNull.
Proof. vm_compute. reflexivity. Qed.

(** An answer that is [null] itself makes the bare client throw; the cache
    still reads [null]. *)
Example redisGetJson_null_answer :
  let answer := JsonText.stringify JNull in
  (@redisGetJson JsonText.codec (constant_remote 200 answer)
     (configured "https://store.example" "secret") "k"
     (@Build_World (constant_remote 200 answer) tt [])).1
  = Throw (TypeError "Cannot read properties of null (reading '0')")
  /\ (@getRedisCachedJson JsonText.codec (constant_remote 200 answer)
        (configured "https://store.example" "secret") "translate" "k"
        (@Build_World (constant_remote 200 answer) tt [])).1
     = Normal JNull.
Proof. split; vm_compute; reflexivity. Qed.

(** Every call answered with HTTP 500, and a store out of reach: the cache
    reads [null] and its write returns, each after one request. *)
Example cache_against_http_500 :
  let R := constant_remote 500 "Internal Server Error" in
  let m := configured "https://store.example" "secret" in
  let w := @Build_World R tt [] in
  let got := @getRedisCachedJson JsonText.codec R m "translate" "k" w in
  let put := @setRedisCachedJson JsonText.codec R m "translate" "k" (JNum 1) 60 w in
  got.1 = Normal JNull /\ length (sent got.2) = 1%nat
  /\ put.1 = Normal tt /\ length (sent put.2) = 1%nat.
Proof. vm_compute. done. Qed.

Example cache_against_unreachable_store :
  let R := unreachable_remote in
  let m := configured "https://store.example" "secret" in
  let w := @Build_World R tt [] in
  let got := @getRedisCachedJson JsonText.codec R m "translate" "k" w in
  let put := @setRedisCachedJson JsonText.codec R m "translate" "k" (JNum 1) 60 w in
  got.1 = Normal JNull /\ length (sent got.2) = 1%nat
  /\ put.1 = Normal tt /\ length (sent put.2) = 1%nat.
Proof. vm_compute. done. Qed.

Example cache_unconfigured :
  let R := constant_remote 200 "[]" in
  let m := load_redis ∅ in
  let w := @Build_World R tt [] in
  @getRedisCachedJson JsonText.codec R m "translate" "k" w = (Normal JNull, w)
  /\ @setRedisCachedJson JsonText.codec R m "translate" "k" (JNum 1) 60 w = (Normal tt, w).
Proof. vm_compute. done. Qed.

(** ** The fixed-window limiter *)

Section Limiter.
Import RateLimit.
Variable cfg : Config.
Variable id : string.

(** A request of another identity leaves the window of [id] alone. *)
Lemma check_other (id' : string) (now : Z) (st : gmap (string * string) RateWindow) :
  id' ≠ id ->
  (check cfg id' now st).2 !! (id, cfg_bucket cfg) = st !! (id, cfg_bucket cfg).
Proof. intros Hne. unfold check. cbn [snd]. apply lookup_insert_ne. congruence. Qed.

Lemma check_all_app (ts1 ts2 : list Z) (st : gmap (string * string) RateWindow) :
  check_all cfg id (ts1 ++ ts2) st =
    let '(ds1, st1) := check_all cfg id ts1 st in
    let '(ds2, st2) := check_all cfg id ts2 st1 in
    (ds1 ++ ds2, st2).
Proof.
  revert st. induction ts1 as [|now ts1 IH]; intros st; cbn [check_all app].
  - by destruct (check_all cfg id ts2 st).
  - destruct (check cfg id now st) as [d st1]. rewrite IH.
    destruct (check_all cfg id ts1 st1) as [ds1 st2].
    by destruct (check_all cfg id ts2 st2).
Qed.

(** Inside an open window every request is counted against that window. *)
Lemma check_active (now : Z) (st : gmap (string * string) RateWindow) (w0 : RateWindow) :
  st !! (id, cfg_bucket cfg) = Some w0 ->
  now - windowStart w0 < windowLengthSeconds w0 ->
  check cfg id now st =
    (decision_of (bump w0) now, <[(id, cfg_bucket cfg) := bump w0]> st).
Proof.
  intros Hw Hin. unfold check, active. rewrite Hw.
  by destruct (Z.ltb_spec (now - windowStart w0) (windowLengthSeconds w0)); [|lia].
Qed.

Lemma check_fresh (now : Z) (st : gmap (string * string) RateWindow) :
  no_active_window cfg id now st ->
  check cfg id now st =
    (decision_of (fresh_window cfg id now) now,
     <[(id, cfg_bucket cfg) := fresh_window cfg id now]> st).
Proof.
  unfold no_active_window, check. intros Hno.
  destruct (st !! (id, cfg_bucket cfg)) as [w0|]; [|done]. by rewrite Hno.
Qed.

Lemma check_all_within_budget (times : list Z) (st : gmap (string * string) RateWindow)
    (w0 : RateWindow) :
  st !! (id, cfg_bucket cfg) = Some w0 ->
  Forall (fun now => now - windowStart w0 < windowLengthSeconds w0) times ->
  count w0 + Z.of_nat (length times) <= limit w0 ->
  exists st' w',
    check_all cfg id times st = (replicate (length times) Allow, st')
    /\ st' !! (id, cfg_bucket cfg) = Some w'
    /\ windowStart w' = windowStart w0
    /\ windowLengthSeconds w' = windowLengthSeconds w0
    /\ limit w' = limit w0
    /\ count w' = count w0 + Z.of_nat (length times).
Proof.
  revert st w0. induction times as [|now times IH]; intros st w0 Hw Hin Hbudget.
  - exists st, w0. simpl. split_and!; try done. lia.
  - apply Forall_cons in Hin as [Hnow Hin]. simpl in Hbudget.
    cbn [check_all length replicate]. rewrite (check_active now st w0 Hw Hnow).
    destruct (IH (<[(id, cfg_bucket cfg) := bump w0]> st) (bump w0))
      as (st' & w' & Hrun & Hw' & Hs & Hl & Hlim & Hc).
    + apply lookup_insert_eq.
    + done.
    + simpl. lia.
    + rewrite Hrun. exists st', w'. split_and!; try done.
      * unfold decision_of. simpl.
        by destruct (Z.leb_spec (count w0 + 1) (limit w0)); [|lia].
      * rewrite Hc. simpl. lia.
Qed.

(** C2. Starting without an active window for the identity, [limit]
    requests inside one window are all allowed and the next one inside the
    same window is denied with
    [retryAfter = windowLengthSeconds - (now - windowStart)], which lies in
    [(0, windowLengthSeconds]]. *)
Theorem fixed_window_limit (st : gmap (string * string) RateWindow)
    (t0 : Z) (times : list Z) (t : Z) :
  0 <= cfg_limit cfg ->
  length times = Z.to_nat (cfg_limit cfg) ->
  head (times ++ [t]) = Some t0 ->
  no_active_window cfg id t0 st ->
  Forall (fun now => t0 <= now < t0 + cfg_windowLengthSeconds cfg) (times ++ [t]) ->
  (check_all cfg id (times ++ [t]) st).1
    = replicate (Z.to_nat (cfg_limit cfg)) Allow
      ++ [Deny (cfg_windowLengthSeconds cfg - (t - t0))]
  /\ 0 < cfg_windowLengthSeconds cfg - (t - t0) <= cfg_windowLengthSeconds cfg.
Proof.
  intros Hlimit Hlen Hhead Hno Hin.
  assert (Ht : t0 <= t < t0 + cfg_windowLengthSeconds cfg).
  { pose proof (proj1 (Forall_app _ _ _) Hin) as [_ Hlast].
    apply (proj1 (Forall_singleton _ _)) in Hlast. cbv beta in Hlast. lia. }
  split; [|lia].
  destruct times as [|t1 times].
  - simpl in Hhead, Hlen. injection Hhead as ->. rewrite <- Hlen.
    cbn [app check_all replicate].
    rewrite (check_fresh t0 st Hno). unfold decision_of. simpl.
    destruct (Z.leb_spec 1 (cfg_limit cfg)); [lia|].
    do 3 f_equal.
  - simpl in Hhead. injection Hhead as ->. simpl in Hlen.
    rewrite <- Hlen. cbn [app check_all replicate].
    rewrite (check_fresh t0 st Hno).
    apply (proj1 (Forall_cons _ _ _)) in Hin as [_ Hin].
    apply (proj1 (Forall_app _ _ _)) in Hin as [Hin _].
    rewrite check_all_app.
    destruct (check_all_within_budget times
                (<[(id, cfg_bucket cfg) := fresh_window cfg id t0]> st)
                (fresh_window cfg id t0))
      as (st' & w' & Hrun & Hw' & Hs & Hl & Hlim & Hc).
    + apply lookup_insert_eq.
    + simpl. eapply Forall_impl; [exact Hin|]. simpl. intros; lia.
    + simpl. lia.
    + rewrite Hrun. simpl in Hs, Hl, Hlim, Hc. cbn [check_all].
      rewrite (check_active t st' w' Hw') by (rewrite Hs, Hl; lia).
      unfold decision_of at 1. simpl.
      destruct (Z.leb_spec 1 (cfg_limit cfg)); [|lia].
      unfold decision_of. simpl. rewrite Hc, Hlim, Hs, Hl.
      destruct (Z.leb_spec (1 + Z.of_nat (length times) + 1) (cfg_limit cfg)); [lia|].
      done.
Qed.

End Limiter.

(** Scenario: bucket "translate", limit 5, window 60 s, one caller. *)
Lemma fixed_window_limit_witness :
  (RateLimit.check_all
     {| RateLimit.cfg_bucket := "translate"; RateLimit.cfg_limit := 5;
        RateLimit.cfg_windowLengthSeconds := 60 |}
     "ip:203.0.113.7" ([1000; 1001; 1005; 1020; 1059] ++ [1059]) ∅).1
  = replicate (Z.to_nat 5) RateLimit.Allow ++ [RateLimit.Deny (60 - (1059 - 1000))]
  /\ 0 < 60 - (1059 - 1000) <= 60.
Proof.
  apply (fixed_window_limit
           {| RateLimit.cfg_bucket := "translate"; RateLimit.cfg_limit := 5;
              RateLimit.cfg_windowLengthSeconds := 60 |}
           "ip:203.0.113.7" ∅ 1000 [1000; 1001; 1005; 1020; 1059] 1059).
  - simpl. lia.
  - reflexivity.
  - reflexivity.
  - exact I.
  - repeat constructor; simpl; lia.
Defined.

(** ** The cache in front of a store that answers *)

Lemma to_int_not_nil (n : Z) :
  Z.to_int n ≠ Decimal.Pos Decimal.Nil /\ Z.to_int n ≠ Decimal.Neg Decimal.Nil.
Proof.
  destruct n as [|p|p]; simpl; split; try discriminate;
    intros [= Hp]; by apply DecimalPos.Unsigned.to_uint_nonnil in Hp.
Qed.

Lemma parse_int_decimal (n : Z) : parse_int (decimal n) = Some n.
Proof.
  unfold parse_int, decimal.
  destruct (to_int_not_nil n) as [Hpos Hneg].
  rewrite NilZero.isi by done. simpl. by rewrite DecimalZ.of_to.
Qed.

Lemma String_of_number_safe (n : Z) :
  Z.abs n < 2 ^ 53 -> String_of_number n = decimal n.
Proof.
  intros Hn. unfold String_of_number.
  by destruct (Z.ltb_spec (Z.abs n) (2 ^ 53)); [|lia].
Qed.

(** Whatever text a number that is not positive is sent as, the store does
    not read a positive integer from it. *)
Lemma parse_int_String_of_nonpositive (n : Z) :
  n <= 0 ->
  match parse_int (String_of_number n) with
  | Some m => (0 <? m) = false
  | None => True
  end.
Proof.
  intros Hn. unfold String_of_number.
  destruct (Z.ltb_spec (Z.abs n) (2 ^ 53)) as [_|Hbig].
  - rewrite parse_int_decimal. by destruct (Z.ltb_spec 0 n); [lia|].
  - destruct (Z.ltb_spec n 0) as [_|]; [|lia].
    change ("-" +:+ String_of_finite (round_double (- n)))
      with (String "-" (String_of_finite (round_double (- n)))).
    unfold parse_int. cbn [NilZero.int_of_string Ascii.eqb Bool.eqb].
    destruct (NilZero.uint_of_string _) as [d|]; [|done]. cbn.
    destruct (Z.ltb_spec 0 (- Z.of_uint d)) as [Hpos|]; [|done].
    unfold Z.of_uint in Hpos. lia.
Qed.

Lemma strings_of_json_map (command : list string) :
  strings_of_json (map JStr command) = Some command.
Proof. induction command as [|s command IH]; simpl; [done|]. by rewrite IH. Qed.

Lemma commands_of_json_payload (payload : list (list string)) :
  commands_of_json (map (fun command => JArr (map JStr command)) payload) = Some payload.
Proof.
  induction payload as [|c payload IH]; simpl; [done|].
  by rewrite strings_of_json_map, IH.
Qed.

Lemma headers_get_authorization (authorization content : string) :
  headers_get [("Authorization", authorization); ("Content-Type", content)]
              "authorization" = Some authorization.
Proof. reflexivity. Qed.

Section Store.
Context `{JsonCodec} {laws : JsonCodecLaws} (endpoint token : string).
Hypothesis endpoint_set : endpoint ≠ "".
Hypothesis token_set : token ≠ "".

Local Abbreviation the_store := (store_remote endpoint token).

(** A batch sent to the store comes back as the store's answers, in order,
    after one request. *)
Lemma redisPipeline_store (commands : list (list Token))
    (db : gmap string (string * Z)) (log : list HttpRequest) :
  @redisPipeline _ the_store (configured endpoint token) commands
    (@Build_World the_store db log)
  = (Normal (JArr (store_run (map (fun c => map String_of c) commands) db).1),
     @Build_World the_store
       (store_run (map (fun c => map String_of c) commands) db).2
       (log ++ [pipeline_request endpoint token commands])).
Proof.
  unfold redisPipeline.
  rewrite (redisFetch_configured _ _ _ endpoint token) by done.
  unfold bind, fetch. cbn [remote sent serve the_store store_remote].
  unfold store_serve. cbn [req_url req_headers req_body].
  rewrite String.eqb_refl, headers_get_authorization.
  rewrite bool_decide_eq_true_2 by done. cbn [negb].
  rewrite parse_stringify. unfold json_of_payload.
  rewrite commands_of_json_payload.
  destruct (store_run _ db) as [results db'] eqn:Hrun.
  cbn [resp_ok resp_status negb andb Z.leb Z.compare Pos.compare Pos.compare_cont
       fst snd].
  unfold resp_json, ret. cbn [resp_text]. rewrite parse_stringify.
  unfold pipeline_request, json_of_payload. reflexivity.
Qed.

(** C4. With the store configured and answering, a write of [v] under an
    expiry that is a positive integer below 2^53, which [String] renders as
    the plain decimal numeral the store reads, followed at once by a read of
    the same prefix and raw key, returns [v]; each of the two takes one
    request. *)
Theorem cache_round_trip (prefix rawKey : string) (v : JSON) (ttlSeconds : Z)
    (db : gmap string (string * Z)) (log : list HttpRequest) :
  0 < ttlSeconds < 2 ^ 53 ->
  exists w1 w2,
    @setRedisCachedJson _ the_store (configured endpoint token) prefix rawKey v
      ttlSeconds (@Build_World the_store db log) = (Normal tt, w1)
    /\ @getRedisCachedJson _ the_store (configured endpoint token) prefix rawKey w1
       = (Normal v, w2)
    /\ length (sent w2) = (length log + 2)%nat.
Proof.
  intros Httl.
  assert (Hcfg : hasRedisConfig (configured endpoint token) = true).
  { apply hasRedisConfig_spec. exists endpoint, token. by simpl. }
  unfold setRedisCachedJson, getRedisCachedJson. rewrite Hcfg. cbn [negb].
  unfold try_catch, redisSetJson, redisGetJson, bind, ret, lift.
  rewrite redisPipeline_store.
  eexists _, _. split; [reflexivity|].
  rewrite redisPipeline_store.
  cbn [map String_of store_run store_exec fst snd].
  rewrite String_of_number_safe by lia. rewrite parse_int_decimal.
  destruct (Z.ltb_spec 0 ttlSeconds) as [_|]; [|lia].
  cbn [String.eqb Ascii.eqb Bool.eqb andb fst snd].
  rewrite lookup_insert_eq.
  cbn [js_index0 head js_opt_result obj_get String.eqb Ascii.eqb Bool.eqb].
  rewrite parse_stringify.
  split; [reflexivity|]. cbn [sent]. rewrite !length_app. simpl. lia.
Qed.

End Store.

(** ** The host codec reads back what it writes *)

Section Codec.
Import JsonText.

Lemma parse_chars_escape_char (c : ascii) (tl : list ascii) :
  parse_chars (escape_char c ++ tl) =
    match parse_chars tl with
    | Some (s, r) => Some (c :: s, r)
    | None => None
    end.
Proof. destruct c as [[] [] [] [] [] [] [] []]; reflexivity. Qed.

Lemma parse_chars_escaped (s tl : list ascii) :
  parse_chars (flat_map escape_char s ++ dquote :: tl) = Some (s, tl).
Proof.
  induction s as [|c s IH]; [reflexivity|].
  cbn [flat_map]. by rewrite <- app_assoc, parse_chars_escape_char, IH.
Qed.

Lemma parse_string_print (s : string) (tl : list ascii) :
  print_string s ++ tl = dquote :: flat_map escape_char (chars s) ++ dquote :: tl
  /\ parse_string (flat_map escape_char (chars s) ++ dquote :: tl) = Some (s, tl).
Proof.
  split.
  - unfold print_string. cbn [app]. by rewrite <- app_assoc.
  - unfold parse_string. rewrite parse_chars_escaped. unfold chars.
    by rewrite String.string_of_list_ascii_of_string.
Qed.

Lemma num_char_not_bracket (c : ascii) :
  is_num_char c = true -> Ascii.eqb c "]" = false.
Proof. destruct c as [[] [] [] [] [] [] [] []]; intros Hc; done. Qed.

Lemma uint_chars (d : Decimal.uint) :
  Forall (fun c => is_num_char c = true) (chars (NilEmpty.string_of_uint d)).
Proof. induction d; simpl; constructor; done. Qed.

Lemma print_number_chars (n : Z) :
  Forall (fun c => is_num_char c = true) (print_number n)
  /\ exists c r, print_number n = c :: r.
Proof.
  unfold print_number, decimal.
  assert (Hu : forall d, Forall (fun c => is_num_char c = true)
                                (chars (NilZero.string_of_uint d))
                         /\ exists c r, chars (NilZero.string_of_uint d) = c :: r).
  { intros d. split.
    - destruct d; try apply uint_chars. repeat constructor.
    - destruct d; simpl; eauto. }
  destruct (Z.to_int n) as [d|d]; simpl.
  - apply Hu.
  - split; [|eauto]. constructor; [done|]. apply Hu.
Qed.

Lemma span_num_app (ds tl : list ascii) :
  Forall (fun c => is_num_char c = true) ds -> no_num_head tl ->
  span_num (ds ++ tl) = (ds, tl).
Proof.
  intros Hds Htl. induction Hds as [|c ds Hc Hds IH]; cbn [span_num app].
  - destruct tl as [|c tl]; [done|]. cbn [span_num]. unfold no_num_head in Htl.
    by rewrite Htl.
  - by rewrite Hc, IH.
Qed.

Lemma parse_number_print (n : Z) (tl : list ascii) :
  no_num_head tl -> parse_number (print_number n ++ tl) = Some (n, tl).
Proof.
  intros Htl. unfold parse_number.
  rewrite span_num_app by (done || apply print_number_chars).
  unfold print_number, chars. rewrite String.string_of_list_ascii_of_string.
  by rewrite parse_int_decimal.
Qed.

(** Induction on values that reaches the elements of arrays and the
    members of objects. *)
Lemma JSON_nested_ind (P : JSON -> Prop) :
  P JNull -> (forall b, P (JBool b)) -> (forall n, P (JNum n)) ->
  (forall s, P (JStr s)) ->
  (forall items, Forall P items -> P (JArr items)) ->
  (forall fields, Forall (fun kx => P kx.2) fields -> P (JObj fields)) ->
  forall v, P v.
Proof.
  intros Hnull Hbool Hnum Hstr Harr Hobj.
  fix IH 1. intros [ |b|n|s|items|fields].
  - exact Hnull.
  - apply Hbool.
  - apply Hnum.
  - apply Hstr.
  - apply Harr. induction items as [|x items IHitems]; constructor; [apply IH | exact IHitems].
  - apply Hobj. induction fields as [|[k x] fields IHfields]; constructor;
      [apply IH | exact IHfields].
Qed.

(** One step of each parser on the text the printer produces. *)
Lemma parse_value_number (fuel : nat) (c : ascii) (cs : list ascii) :
  is_num_char c = true ->
  parse_value (S fuel) (c :: cs) =
    match parse_number (c :: cs) with
    | Some (n, r) => Some (JNum n, r)
    | None => None
    end.
Proof. intros Hc. cbn [parse_value]. by rewrite Hc. Qed.

Lemma parse_value_string (fuel : nat) (cs : list ascii) :
  parse_value (S fuel) (dquote :: cs) =
    match parse_string cs with
    | Some (s, r) => Some (JStr s, r)
    | None => None
    end.
Proof. reflexivity. Qed.

Lemma parse_value_array (fuel : nat) (c : ascii) (cs : list ascii) :
  Ascii.eqb c "]" = false ->
  parse_value (S fuel) ("["%char :: c :: cs) =
    match parse_value fuel (c :: cs) with
    | Some (x, r1) =>
        match parse_items fuel r1 with
        | Some (xs, r2) => Some (JArr (x :: xs), r2)
        | None => None
        end
    | None => None
    end.
Proof.
  intros Hc.
  change (parse_value (S fuel) ("["%char :: c :: cs)) with
    (if Ascii.eqb c "]" then Some (JArr [], cs)
     else match parse_value fuel (c :: cs) with
          | Some (x, r1) =>
              match parse_items fuel r1 with
              | Some (xs, r2) => Some (JArr (x :: xs), r2)
              | None => None
              end
          | None => None
          end).
  by rewrite Hc.
Qed.

Lemma parse_items_comma (fuel : nat) (cs : list ascii) :
  parse_items (S fuel) (","%char :: cs) =
    match parse_value fuel cs with
    | Some (x, r1) =>
        match parse_items fuel r1 with
        | Some (xs, r2) => Some (x :: xs, r2)
        | None => None
        end
    | None => None
    end.
Proof. reflexivity. Qed.

Lemma parse_field_string (fuel : nat) (cs : list ascii) :
  parse_field (S fuel) (dquote :: cs) =
    match parse_string cs with
    | Some (k, c2 :: r1) =>
        if Ascii.eqb c2 ":" then
          match parse_value fuel r1 with
          | Some (x, r2) => Some ((k, x), r2)
          | None => None
          end
        else None
    | _ => None
    end.
Proof. reflexivity. Qed.

Lemma parse_value_object (fuel : nat) (cs : list ascii) :
  parse_value (S fuel) ("{"%char :: dquote :: cs) =
    match parse_field fuel (dquote :: cs) with
    | Some (kx, r1) =>
        match parse_fields fuel r1 with
        | Some (kxs, r2) => Some (JObj (kx :: kxs), r2)
        | None => None
        end
    | None => None
    end.
Proof. reflexivity. Qed.

Lemma parse_fields_comma (fuel : nat) (cs : list ascii) :
  parse_fields (S fuel) (","%char :: cs) =
    match parse_field fuel cs with
    | Some (kx, r1) =>
        match parse_fields fuel r1 with
        | Some (kxs, r2) => Some (kx :: kxs, r2)
        | None => None
        end
    | None => None
    end.
Proof. reflexivity. Qed.

Lemma print_head (v : JSON) :
  exists c r, print v = c :: r /\ Ascii.eqb c "]" = false.
Proof.
  destruct v as [ |[]|n|s|[|x items]|[|[k x] fields]];
    try (eexists _, _; split; [reflexivity|reflexivity]).
  destruct (print_number_chars n) as [Hall (c & r & Hn)].
  exists c, r. split; [exact Hn|]. apply num_char_not_bracket.
  cbn [print] in Hall. rewrite Hn in Hall. by apply (proj1 (Forall_cons _ _ _)) in Hall as [? _].
Qed.

Lemma print_more_head (rest : list JSON) (tl : list ascii) :
  no_num_head (print_more print rest ++ tl).
Proof. by destruct rest. Qed.

Lemma print_more_fields_head (rest : list (string * JSON)) (tl : list ascii) :
  no_num_head (print_more_fields print rest ++ tl).
Proof. by destruct rest as [|[k x] rest]. Qed.

Lemma parse_items_print (rest : list JSON) :
  Forall reads_back rest ->
  forall (fuel : nat) (tl : list ascii),
    (length (print_more print rest) < fuel)%nat ->
    parse_items fuel (print_more print rest ++ tl) = Some (rest, tl).
Proof.
  induction 1 as [|y l Hy Hl IH]; intros fuel tl Hfuel.
  - destruct fuel as [|fuel]; [simpl in Hfuel; lia|]. reflexivity.
  - change (print_more print (y :: l))
      with (","%char :: print y ++ print_more print l) in *.
    cbn [length] in Hfuel. rewrite length_app in Hfuel.
    destruct fuel as [|fuel]; [lia|].
    cbn [app]. rewrite parse_items_comma, <- app_assoc.
    rewrite Hy by (lia || apply print_more_head).
    by rewrite IH by lia.
Qed.

Lemma print_string_length (s : string) : (2 <= length (print_string s))%nat.
Proof. unfold print_string. cbn [length]. rewrite length_app. simpl. lia. Qed.

Lemma parse_field_print (k : string) (x : JSON) (fuel : nat) (tl : list ascii) :
  reads_back x ->
  (length (print x) < fuel)%nat -> no_num_head tl ->
  parse_field (S fuel) (print_string k ++ ":"%char :: print x ++ tl)
  = Some ((k, x), tl).
Proof.
  intros Hx Hfuel Htl.
  destruct (parse_string_print k (":"%char :: print x ++ tl)) as [-> Hk].
  rewrite parse_field_string, Hk. cbn [Ascii.eqb Bool.eqb].
  by rewrite Hx.
Qed.

Lemma parse_fields_print (rest : list (string * JSON)) :
  Forall (fun kx => reads_back kx.2) rest ->
  forall (fuel : nat) (tl : list ascii),
    (length (print_more_fields print rest) < fuel)%nat ->
    parse_fields fuel (print_more_fields print rest ++ tl) = Some (rest, tl).
Proof.
  induction 1 as [|[k y] l Hy Hl IH]; intros fuel tl Hfuel.
  - destruct fuel as [|fuel]; [simpl in Hfuel; lia|]. reflexivity.
  - change (print_more_fields print ((k, y) :: l))
      with (","%char :: print_string k ++ ":"%char :: print y
                     ++ print_more_fields print l) in *.
    cbn [length] in Hfuel. rewrite length_app in Hfuel. cbn [length] in Hfuel.
    rewrite length_app in Hfuel. pose proof (print_string_length k).
    destruct fuel as [|[|fuel]]; [lia|lia|].
    cbn [app]. rewrite parse_fields_comma.
    replace ((print_string k ++ ":"%char :: print y ++ print_more_fields print l) ++ tl)
      with (print_string k ++ ":"%char :: print y ++ print_more_fields print l ++ tl)
      by (rewrite <- !app_assoc; cbn [app]; by rewrite <- app_assoc).
    rewrite parse_field_print by (done || lia || apply print_more_fields_head).
    by rewrite IH by lia.
Qed.

Lemma print_reads_back (v : JSON) : reads_back v.
Proof.
  induction v as [ |b|n|s|items IH|fields IH] using JSON_nested_ind;
    intros fuel tl Hfuel Htl.
  - destruct fuel as [|fuel]; [lia|]. reflexivity.
  - destruct fuel as [|fuel]; [lia|]. by destruct b.
  - destruct fuel as [|fuel]; [lia|]. cbn [print].
    destruct (print_number_chars n) as [Hall (c & r & Hn)].
    assert (Hc : is_num_char c = true).
    { rewrite Hn in Hall. by apply (proj1 (Forall_cons _ _ _)) in Hall as [? _]. }
    pose proof (parse_number_print n tl Htl) as Hparse.
    rewrite Hn in *. cbn [app] in *. by rewrite parse_value_number, Hparse.
  - destruct fuel as [|fuel]; [lia|]. cbn [print].
    destruct (parse_string_print s tl) as [-> Hs].
    by rewrite parse_value_string, Hs.
  - destruct items as [|x rest].
    + destruct fuel as [|fuel]; [lia|]. reflexivity.
    + apply (proj1 (Forall_cons _ _ _)) in IH as [Hx Hrest].
      change (print (JArr (x :: rest)))
        with ("["%char :: print x ++ print_more print rest) in *.
      cbn [length] in Hfuel. rewrite length_app in Hfuel.
      destruct fuel as [|fuel]; [lia|].
      destruct (print_head x) as (c & r & Hhead & Hc).
      cbn [app]. rewrite <- app_assoc.
      pose proof (Hx fuel (print_more print rest ++ tl)) as Hread.
      rewrite Hhead in *. cbn [app] in *.
      rewrite parse_value_array by done.
      rewrite Hread by (lia || apply print_more_head).
      by rewrite (parse_items_print rest Hrest) by lia.
  - destruct fields as [|[k x] rest].
    + destruct fuel as [|fuel]; [lia|]. reflexivity.
    + apply (proj1 (Forall_cons _ _ _)) in IH as [Hx Hrest]. cbn [snd] in Hx.
      change (print (JObj ((k, x) :: rest)))
        with ("{"%char :: print_string k ++ ":"%char :: print x
                       ++ print_more_fields print rest) in *.
      cbn [length] in Hfuel. rewrite length_app in Hfuel. cbn [length] in Hfuel.
      rewrite length_app in Hfuel. pose proof (print_string_length k).
      destruct fuel as [|[|fuel]]; [lia|lia|].
      cbn [app].
      replace ((print_string k ++ ":"%char :: print x ++ print_more_fields print rest) ++ tl)
        with (print_string k ++ ":"%char :: print x ++ print_more_fields print rest ++ tl)
        by (rewrite <- !app_assoc; cbn [app]; by rewrite <- app_assoc).
      pose proof (parse_field_print k x fuel (print_more_fields print rest ++ tl) Hx)
        as Hfield.
      destruct (parse_string_print k
                  (":"%char :: print x ++ print_more_fields print rest ++ tl))
        as [Hshape _].
      rewrite Hshape in *. rewrite parse_value_object.
      rewrite Hfield by (lia || apply print_more_fields_head).
      by rewrite (parse_fields_print rest Hrest) by lia.
Qed.

Lemma parse_stringify_text (v : JSON) : parse (stringify v) = Some v.
Proof.
  unfold parse, stringify, chars.
  rewrite String.list_ascii_of_string_of_list_ascii, string_of_list_ascii_length.
  rewrite <- (app_nil_r (print v)) at 2.
  by rewrite (print_reads_back v (S (length (print v))) []) by (simpl; done || lia).
Qed.

End Codec.

Lemma JsonText_laws : @JsonCodecLaws JsonText.codec.
Proof. constructor. exact parse_stringify_text. Qed.

(** Scenario: prefix "translate", raw key "en→es:hello", value
    [{text: "hola"}], expiry 3600 s, against an empty store. *)
Lemma cache_round_trip_witness :
  exists w1 w2,
    @setRedisCachedJson JsonText.codec
      (@store_remote JsonText.codec "https://store.example" "secret")
      (configured "https://store.example" "secret")
      "translate" "en→es:hello" (JObj [("text", JStr "hola")]) 3600
      (@Build_World (@store_remote JsonText.codec "https://store.example" "secret") ∅ [])
    = (Normal tt, w1)
    /\ @getRedisCachedJson JsonText.codec
         (@store_remote JsonText.codec "https://store.example" "secret")
         (configured "https://store.example" "secret")
         "translate" "en→es:hello" w1
       = (Normal (JObj [("text", JStr "hola")]), w2)
    /\ length (sent w2) = (length (@nil HttpRequest) + 2)%nat.
Proof.
  apply (@cache_round_trip JsonText.codec JsonText_laws
           "https://store.example" "secret"); [done | done | lia].
Defined.

(** An expiry of 10^21 seconds is sent as the text [1e+21]; the store does
    not read an integer from it and refuses the command, the client does
    not look at the command's error, and the read that follows finds
    nothing. *)
Lemma cache_round_trip_fails_for_large_ttl :
  String_of_number (10 ^ 21) = "1e+21"
  /\ (@setRedisCachedJson JsonText.codec
        (@store_remote JsonText.codec "https://store.example" "secret")
        (configured "https://store.example" "secret")
        "translate" "en→es:hello" (JObj [("text", JStr "hola")]) (10 ^ 21)
        (@Build_World (@store_remote JsonText.codec "https://store.example" "secret")
           ∅ [])).1
     = Normal tt
  /\ (@getRedisCachedJson JsonText.codec
        (@store_remote JsonText.codec "https://store.example" "secret")
        (configured "https://store.example" "secret")
        "translate" "en→es:hello"
        (@setRedisCachedJson JsonText.codec
           (@store_remote JsonText.codec "https://store.example" "secret")
           (configured "https://store.example" "secret")
           "translate" "en→es:hello" (JObj [("text", JStr "hola")]) (10 ^ 21)
           (@Build_World (@store_remote JsonText.codec "https://store.example" "secret")
              ∅ [])).2).1
     = Normal JNull
  /\ ~ (exists w1 w2,
          @setRedisCachedJson JsonText.codec
            (@store_remote JsonText.codec "https://store.example" "secret")
            (configured "https://store.example" "secret")
            "translate" "en→es:hello" (JObj [("text", JStr "hola")]) (10 ^ 21)
            (@Build_World (@store_remote JsonText.codec "https://store.example" "secret")
               ∅ [])
          = (Normal tt, w1)
          /\ @getRedisCachedJson JsonText.codec
               (@store_remote JsonText.codec "https://store.example" "secret")
               (configured "https://store.example" "secret")
               "translate" "en→es:hello" w1
             = (Normal (JObj [("text", JStr "hola")]), w2)).
Proof.
  assert (Hnull :
    (@getRedisCachedJson JsonText.codec
       (@store_remote JsonText.codec "https://store.example" "secret")
       (configured "https://store.example" "secret")
       "translate" "en→es:hello"
       (@setRedisCachedJson JsonText.codec
          (@store_remote JsonText.codec "https://store.example" "secret")
          (configured "https://store.example" "secret")
          "translate" "en→es:hello" (JObj [("text", JStr "hola")]) (10 ^ 21)
          (@Build_World (@store_remote JsonText.codec "https://store.example" "secret")
             ∅ [])).2).1
    = Normal JNull) by (vm_compute; reflexivity).
  split_and!; [vm_compute; reflexivity | vm_compute; reflexivity | exact Hnull |].
  intros (w1 & w2 & Hset & Hget).
  apply (f_equal snd) in Hset. cbn [snd] in Hset. subst w1.
  apply (f_equal fst) in Hget. cbn [fst] in Hget.
  rewrite Hnull in Hget. discriminate Hget.
Qed.

(** [String] on integers, against what a JavaScript engine prints. *)
Example String_of_number_examples :
  map String_of_number
      [0; 3600; -5; 2 ^ 53 - 1; 2 ^ 53; 2 ^ 53 + 1; 2 ^ 60; 10 ^ 21 - 1; 10 ^ 21;
       - 10 ^ 21; 10 ^ 23; 1234567890123456789012; 2 ^ 70; 2 ^ 1024]
  = ["0"; "3600"; "-5"; "9007199254740991"; "9007199254740992";
     "9007199254740992"; "1152921504606847000"; "1e+21"; "1e+21"; "-1e+21";
     "1e+23"; "1.2345678901234568e+21"; "1.1805916207174113e+21"; "Infinity"].
Proof. vm_compute. reflexivity. Qed.

(** Below 2^53 the search for the shortest digits ends on the numeral
    itself. *)
Example shortest_digits_of_safe_integers :
  map (fun n => String_of_finite (round_double n))
      [1; 10; 60; 500; 3600; 86400; 123456789; 4503599627370497; 2 ^ 53 - 1]
  = map decimal [1; 10; 60; 500; 3600; 86400; 123456789; 4503599627370497; 2 ^ 53 - 1].
Proof. vm_compute. reflexivity. Qed.

(** The same scenario by evaluation, and the read after the store has
    dropped the entry. *)
Example cache_scenario_evaluated :
  let R := @store_remote JsonText.codec "https://store.example" "secret" in
  let m := configured "https://store.example" "secret" in
  let key := buildHashedCacheKey "translate" "en→es:hello" in
  let w1 := (@setRedisCachedJson JsonText.codec R m "translate" "en→es:hello"
               (JObj [("text", JStr "hola")]) 3600 (@Build_World R ∅ [])).2 in
  (@getRedisCachedJson JsonText.codec R m "translate" "en→es:hello" w1).1
    = Normal (JObj [("text", JStr "hola")])
  /\ (@getRedisCachedJson JsonText.codec R m "translate" "en→es:hello"
        (@Build_World R (delete key (@remote R w1)) (@sent R w1))).1
     = Normal JNull.
Proof. vm_compute. done. Qed.

(** A store that holds a different token answers 401: the cache degrades
    to a miss. *)
Example cache_wrong_token :
  let R := @store_remote JsonText.codec "https://store.example" "secret" in
  let m := configured "https://store.example" "other" in
  (@getRedisCachedJson JsonText.codec R m "translate" "k" (@Build_World R ∅ [])).1
    = Normal JNull
  /\ (@redisPipeline JsonText.codec R m [[TStr "GET"; TStr "k"]] (@Build_World R ∅ [])).1
     = Throw (Error "Redis request failed: 401 Unauthorized").
Proof. vm_compute. done. Qed.

(** * Further properties of the client, the cache and the route *)

(** ** The client on every outcome of its one request *)

Section ClientOutcomes.
Context `{JsonCodec} `{Remote}.

Lemma redisPipeline_log_configured (m : RedisModule)
    (commands : list (list Token)) (w : World) :
  hasRedisConfig m = true ->
  length (sent (redisPipeline m commands w).2) = S (length (sent w)).
Proof.
  intros Hcfg.
  apply hasRedisConfig_spec in Hcfg as (url & token & Hu & Hune & Ht & Htne).
  unfold redisPipeline.
  rewrite (redisFetch_configured m _ w url token Hu Hune Ht Htne).
  unfold bind, throw, fetch.
  match goal with |- context [serve ?rq (remote w)] =>
    destruct (serve rq (remote w)) as [[e|r] remote1] end; cbn [snd sent].
  - rewrite length_app. simpl. lia.
  - destruct (negb (resp_ok r)); [|rewrite resp_json_world];
      cbn [snd sent]; rewrite length_app; simpl; lia.
Qed.

(** X1. The client reaches for the network exactly when it is configured:
    unconfigured, [redisPipeline] throws "Redis config missing." and the
    world is untouched; configured, one request is added to the log. *)
Theorem redisPipeline_contacts_iff_configured (m : RedisModule)
    (commands : list (list Token)) (w : World) :
  (hasRedisConfig m = false ->
   redisPipeline m commands w = (Throw (Error "Redis config missing."), w))
  /\ (hasRedisConfig m = true ->
      length (sent (redisPipeline m commands w).2) = S (length (sent w))).
Proof.
  split.
  - intros Hcfg. unfold redisPipeline. by apply redisFetch_unconfigured.
  - apply redisPipeline_log_configured.
Qed.

(** X2. Configured, a rejected [fetch] surfaces as the very error it was
    rejected with, and a response with a success status yields the
    completion of [JSON.parse] on its body: the parsed value, or a
    [SyntaxError] when the body is not JSON. *)
Theorem redisPipeline_outcomes (m : RedisModule) (commands : list (list Token))
    (w : World) (url token : string) :
  REDIS_URL m = Some url -> url ≠ "" ->
  REDIS_TOKEN m = Some token -> token ≠ "" ->
  (forall e remote',
     serve (pipeline_request url token commands) (remote w) = (Rejected e, remote') ->
     redisPipeline m commands w =
       (Throw e, {| remote := remote';
                    sent := sent w ++ [pipeline_request url token commands] |}))
  /\ (forall r remote',
        serve (pipeline_request url token commands) (remote w) = (Responded r, remote') ->
        resp_ok r = true ->
        redisPipeline m commands w =
          (parse_completion (resp_text r),
           {| remote := remote';
              sent := sent w ++ [pipeline_request url token commands] |})).
Proof.
  intros Hu Hune Ht Htne. unfold redisPipeline.
  rewrite (redisFetch_configured m _ w url token Hu Hune Ht Htne).
  unfold pipeline_request, bind, throw, fetch. split.
  - intros e remote' ->. reflexivity.
  - intros r remote' -> Hok. rewrite Hok. cbn [negb].
    unfold resp_json, parse_completion, ret, throw.
    by destruct (JSON_parse (resp_text r)).
Qed.

Lemma redisGetJson_world (m : RedisModule) (key : string) (w : World) :
  (redisGetJson m key w).2 = (redisPipeline m [[TStr "GET"; TStr key]] w).2.
Proof.
  unfold redisGetJson, bind, lift, ret, throw.
  destruct (redisPipeline m _ w) as [[results|e] w1]; [|done].
  destruct (js_index0 results) as [first|e]; [|done].
  destruct (js_opt_result first) as [[ | | |s| | ]|]; try done.
  by destruct (JSON_parse s).
Qed.

Lemma redisSetJson_world (m : RedisModule) (key : string) (value : JSON)
    (ttl : Z) (w : World) :
  (redisSetJson m key value ttl w).2
  = (redisPipeline m [[TStr "SET"; TStr key; TStr (JSON_stringify value);
                       TStr "EX"; TNum ttl]] w).2.
Proof.
  unfold redisSetJson, bind, ret.
  by destruct (redisPipeline m _ w) as [[results|e] w1].
Qed.

(** X3. One cache call makes one request when the store is configured and
    none otherwise, whatever the remote side answers: neither the read nor
    the write is ever repeated. *)
Theorem cache_request_count (m : RedisModule) (prefix rawKey : string)
    (value : JSON) (ttlSeconds : Z) (w : World) :
  length (sent (getRedisCachedJson m prefix rawKey w).2)
    = (if hasRedisConfig m then S (length (sent w)) else length (sent w))
  /\ length (sent (setRedisCachedJson m prefix rawKey value ttlSeconds w).2)
     = (if hasRedisConfig m then S (length (sent w)) else length (sent w)).
Proof.
  unfold getRedisCachedJson, setRedisCachedJson, try_catch, ret.
  destruct (hasRedisConfig m) eqn:Hcfg; cbn [negb]; [|done].
  split.
  - pose proof (redisGetJson_world m (buildHashedCacheKey prefix rawKey) w) as Hw.
    destruct (redisGetJson m _ w) as [[v|e] w1]; cbn [snd] in *; rewrite Hw;
      by apply redisPipeline_log_configured.
  - pose proof (redisSetJson_world m (buildHashedCacheKey prefix rawKey)
                  value ttlSeconds w) as Hw.
    destruct (redisSetJson m _ value ttlSeconds w) as [[[]|e] w1]; cbn [snd] in *;
      rewrite Hw; by apply redisPipeline_log_configured.
Qed.

End ClientOutcomes.

Lemma redisPipeline_outcomes_witness :
  @redisPipeline JsonText.codec unreachable_remote
    (configured "https://store.example" "secret") [[TStr "GET"; TStr "k"]]
    (@Build_World unreachable_remote tt [])
  = (Throw (TypeError "fetch failed"),
     @Build_World unreachable_remote tt
       [@pipeline_request JsonText.codec "https://store.example" "secret"
          [[TStr "GET"; TStr "k"]]]).
Proof.
  destruct (@redisPipeline_outcomes JsonText.codec unreachable_remote
              (configured "https://store.example" "secret")
              [[TStr "GET"; TStr "k"]]
              (@Build_World unreachable_remote tt [])
              "https://store.example" "secret")
    as [Hreject _]; [reflexivity | done | reflexivity | done |].
  apply (Hreject (TypeError "fetch failed") tt). reflexivity.
Defined.

(** ** Keys of different prefixes *)

Lemma string_app_inj_same_length (a b s1 s2 : string) :
  String.length s1 = String.length s2 ->
  a +:+ s1 = b +:+ s2 -> a = b /\ s1 = s2.
Proof.
  intros Hlen. revert b. induction a as [|c a IH]; intros [|c' b] Heq.
  - done.
  - change ("" +:+ s1) with s1 in Heq. rewrite Heq in Hlen.
    rewrite string_app_length in Hlen. simpl in Hlen. lia.
  - change ("" +:+ s2) with s2 in Heq. rewrite <- Heq in Hlen.
    rewrite string_app_length in Hlen. simpl in Hlen. lia.
  - change (String c (a +:+ s1) = String c' (b +:+ s2)) in Heq.
    injection Heq as -> Heq. destruct (IH b Heq) as [-> ->]. done.
Qed.

Lemma buildHashedCacheKey_inj (prefix1 rawKey1 prefix2 rawKey2 : string) :
  buildHashedCacheKey prefix1 rawKey1 = buildHashedCacheKey prefix2 rawKey2 ->
  prefix1 = prefix2 /\ sha256_hex rawKey1 = sha256_hex rawKey2.
Proof.
  unfold buildHashedCacheKey. intros Heq.
  assert (Hlen : forall k, String.length (sha256_hex k) = 64%nat).
  { intros k. unfold sha256_hex. by rewrite hex_of_bytes_length, digest_bytes_length. }
  apply string_app_inj_same_length in Heq as [Hp Hs].
  - split; [done|].
    change (String ":" (sha256_hex rawKey1) = String ":" (sha256_hex rawKey2)) in Hs.
    congruence.
  - rewrite !string_app_length, !Hlen. done.
Qed.

(** X4. A key determines its prefix and the digest of its raw key: keys
    built under different prefixes are different, whatever the raw keys,
    even when one prefix extends the other across a colon. *)
Theorem buildHashedCacheKey_separates_prefixes
    (prefix1 rawKey1 prefix2 rawKey2 : string) :
  (buildHashedCacheKey prefix1 rawKey1 = buildHashedCacheKey prefix2 rawKey2 ->
   prefix1 = prefix2 /\ sha256_hex rawKey1 = sha256_hex rawKey2)
  /\ (prefix1 ≠ prefix2 ->
      buildHashedCacheKey prefix1 rawKey1 ≠ buildHashedCacheKey prefix2 rawKey2).
Proof.
  split.
  - apply buildHashedCacheKey_inj.
  - intros Hne Heq. by apply buildHashedCacheKey_inj in Heq as [? _].
Qed.

(** ** Reads and writes against the store *)

Section StoreBehaviour.
Context `{JsonCodec} {laws : JsonCodecLaws} (endpoint token : string).
Hypothesis endpoint_set : endpoint ≠ "".
Hypothesis token_set : token ≠ "".

Local Abbreviation the_store := (store_remote endpoint token).
Local Abbreviation cfg := (configured endpoint token).

Lemma configured_hasRedisConfig : hasRedisConfig cfg = true.
Proof. apply hasRedisConfig_spec. exists endpoint, token. by simpl. Qed.

Lemma setRedisCachedJson_store (prefix rawKey : string) (v : JSON) (ttl : Z)
    (db : gmap string (string * Z)) (log : list HttpRequest) :
  @setRedisCachedJson _ the_store cfg prefix rawKey v ttl (@Build_World the_store db log)
  = (Normal tt,
     @Build_World the_store
       (match parse_int (String_of_number ttl) with
        | Some n =>
            if 0 <? n
            then <[buildHashedCacheKey prefix rawKey := (JSON_stringify v, n)]> db
            else db
        | None => db
        end)
       (log ++ [pipeline_request endpoint token
                  [[TStr "SET"; TStr (buildHashedCacheKey prefix rawKey);
                    TStr (JSON_stringify v); TStr "EX"; TNum ttl]]])).
Proof.
  unfold setRedisCachedJson. rewrite configured_hasRedisConfig. cbn [negb].
  unfold try_catch, redisSetJson, bind, ret.
  rewrite (redisPipeline_store endpoint token) by done.
  cbn [map String_of store_run store_exec fst snd].
  cbn [String.eqb Ascii.eqb Bool.eqb andb].
  destruct (parse_int (String_of_number ttl)) as [n|]; [|done].
  by destruct (0 <? n).
Qed.

Lemma redisGetJson_store (key : string)
    (db : gmap string (string * Z)) (log : list HttpRequest) :
  @redisGetJson _ the_store cfg key (@Build_World the_store db log)
  = (match db !! key with
     | Some (s, _) => parse_completion s
     | None => Normal JNull
     end,
     @Build_World the_store db
       (log ++ [pipeline_request endpoint token [[TStr "GET"; TStr key]]])).
Proof.
  unfold redisGetJson, bind, ret, lift, throw.
  rewrite (redisPipeline_store endpoint token) by done.
  cbn [map String_of store_run store_exec fst snd String.eqb Ascii.eqb Bool.eqb].
  destruct (db !! key) as [[s n]|];
    cbn [js_index0 head js_opt_result obj_get String.eqb Ascii.eqb Bool.eqb]; [|done].
  unfold parse_completion. by destruct (JSON_parse s).
Qed.

Lemma getRedisCachedJson_store (prefix rawKey : string)
    (db : gmap string (string * Z)) (log : list HttpRequest) :
  @getRedisCachedJson _ the_store cfg prefix rawKey (@Build_World the_store db log)
  = (Normal match db !! buildHashedCacheKey prefix rawKey with
            | Some (s, _) => default JNull (JSON_parse s)
            | None => JNull
            end,
     @Build_World the_store db
       (log ++ [pipeline_request endpoint token
                  [[TStr "GET"; TStr (buildHashedCacheKey prefix rawKey)]]])).
Proof.
  unfold getRedisCachedJson. rewrite configured_hasRedisConfig. cbn [negb].
  unfold try_catch, ret. rewrite redisGetJson_store.
  destruct (db !! buildHashedCacheKey prefix rawKey) as [[s n]|]; [|done].
  unfold parse_completion. by destruct (JSON_parse s).
Qed.

(** X5. What a read returns is decided by the entry under the hashed key:
    with no entry it is [null]; with a payload that is JSON it is the parsed
    value; with a payload that is not JSON the bare client throws a
    [SyntaxError] and the cache returns [null].  The store is left as it
    was. *)
Theorem cache_read_outcomes (prefix rawKey : string)
    (db : gmap string (string * Z)) (log : list HttpRequest) :
  let key := buildHashedCacheKey prefix rawKey in
  let read := @getRedisCachedJson _ the_store cfg prefix rawKey
                (@Build_World the_store db log) in
  @remote the_store read.2 = db
  /\ (db !! key = None -> read.1 = Normal JNull)
  /\ (forall s n v, db !! key = Some (s, n) -> JSON_parse s = Some v ->
      read.1 = Normal v)
  /\ (forall s n, db !! key = Some (s, n) -> JSON_parse s = None ->
      read.1 = Normal JNull
      /\ (@redisGetJson _ the_store cfg key (@Build_World the_store db log)).1
         = Throw (SyntaxError "Unexpected token in JSON")).
Proof.
  intros key read. subst read key. rewrite getRedisCachedJson_store. cbn [fst snd remote].
  split_and!.
  - done.
  - by intros ->.
  - by intros s n v -> ->.
  - intros s n Hdb Hs. rewrite Hdb, Hs. split; [done|].
    rewrite redisGetJson_store, Hdb. unfold parse_completion. by rewrite Hs.
Qed.

(** X6. A write with a zero or negative expiry returns normally and
    stores nothing: the store refuses the command, the client never looks
    at the command's [error], and a read that follows sees what it would
    have seen before. *)
Theorem cache_write_without_expiry_is_lost (prefix rawKey : string) (v : JSON)
    (ttlSeconds : Z) (db : gmap string (string * Z)) (log : list HttpRequest) :
  ttlSeconds <= 0 ->
  let written := @setRedisCachedJson _ the_store cfg prefix rawKey v ttlSeconds
                   (@Build_World the_store db log) in
  written.1 = Normal tt
  /\ @remote the_store written.2 = db
  /\ (@getRedisCachedJson _ the_store cfg prefix rawKey written.2).1
     = (@getRedisCachedJson _ the_store cfg prefix rawKey
          (@Build_World the_store db log)).1.
Proof.
  intros Httl written. subst written. rewrite setRedisCachedJson_store.
  pose proof (parse_int_String_of_nonpositive ttlSeconds Httl) as Hrefused.
  destruct (parse_int (String_of_number ttlSeconds)) as [n|];
    [rewrite Hrefused|]; cbn [fst snd remote];
    (split_and!; [done|done|]); by rewrite !getRedisCachedJson_store.
Qed.

(** X7. Entries under different prefixes do not interfere: a write under
    one prefix leaves every read under another prefix as it was, for all
    raw keys. *)
Theorem cache_prefixes_isolated (prefix1 rawKey1 prefix2 rawKey2 : string)
    (v : JSON) (ttlSeconds : Z)
    (db : gmap string (string * Z)) (log : list HttpRequest) :
  prefix1 ≠ prefix2 ->
  (@getRedisCachedJson _ the_store cfg prefix2 rawKey2
     (@setRedisCachedJson _ the_store cfg prefix1 rawKey1 v ttlSeconds
        (@Build_World the_store db log)).2).1
  = (@getRedisCachedJson _ the_store cfg prefix2 rawKey2
       (@Build_World the_store db log)).1.
Proof.
  intros Hne. rewrite setRedisCachedJson_store. cbn [snd].
  rewrite !getRedisCachedJson_store. cbn [fst].
  destruct (parse_int (String_of_number ttlSeconds)) as [n|]; [|done].
  destruct (0 <? n); [|done].
  rewrite lookup_insert_ne; [done|].
  intros Heq. by apply buildHashedCacheKey_inj in Heq as [? _].
Qed.

(** X8. The last write wins: of two writes under the same prefix and raw
    key, the second with an expiry that is a positive integer below 2^53, a
    read that follows returns the value of the second, whatever became of
    the first. *)
Theorem cache_last_write_wins (prefix rawKey : string) (v1 v2 : JSON)
    (ttl1 ttl2 : Z) (db : gmap string (string * Z)) (log : list HttpRequest) :
  0 < ttl2 < 2 ^ 53 ->
  (@getRedisCachedJson _ the_store cfg prefix rawKey
     (@setRedisCachedJson _ the_store cfg prefix rawKey v2 ttl2
        (@setRedisCachedJson _ the_store cfg prefix rawKey v1 ttl1
           (@Build_World the_store db log)).2).2).1
  = Normal v2.
Proof.
  intros Httl. rewrite setRedisCachedJson_store. cbn [snd].
  rewrite setRedisCachedJson_store. cbn [snd].
  rewrite getRedisCachedJson_store. cbn [fst].
  rewrite (String_of_number_safe ttl2) by lia. rewrite parse_int_decimal.
  destruct (Z.ltb_spec 0 ttl2) as [_|]; [|lia].
  by rewrite lookup_insert_eq, parse_stringify.
Qed.

End StoreBehaviour.

Lemma cache_read_outcomes_witness :
  (@getRedisCachedJson JsonText.codec
     (@store_remote JsonText.codec "https://store.example" "secret")
     (configured "https://store.example" "secret") "translate" "k"
     (@Build_World (@store_remote JsonText.codec "https://store.example" "secret")
        {[ buildHashedCacheKey "translate" "k" := ("not json", 60) ]} [])).1
  = Normal JNull.
Proof.
  destruct (@cache_read_outcomes JsonText.codec JsonText_laws
              "https://store.example" "secret" ltac:(done) ltac:(done)
              "translate" "k"
              {[ buildHashedCacheKey "translate" "k" := ("not json", 60) ]} [])
    as (_ & _ & _ & Hbad).
  apply (Hbad "not json" 60); [apply lookup_singleton_eq | reflexivity].
Defined.

Lemma cache_write_without_expiry_is_lost_witness :
  (@setRedisCachedJson JsonText.codec
     (@store_remote JsonText.codec "https://store.example" "secret")
     (configured "https://store.example" "secret") "translate" "k" (JNum 1) 0
     (@Build_World (@store_remote JsonText.codec "https://store.example" "secret")
        ∅ [])).1
  = Normal tt.
Proof.
  apply (@cache_write_without_expiry_is_lost JsonText.codec JsonText_laws
           "https://store.example" "secret" ltac:(done) ltac:(done)
           "translate" "k" (JNum 1) 0 ∅ []).
  lia.
Defined.

Lemma cache_prefixes_isolated_witness :
  (@getRedisCachedJson JsonText.codec
     (@store_remote JsonText.codec "https://store.example" "secret")
     (configured "https://store.example" "secret") "analyze" "k"
     (@setRedisCachedJson JsonText.codec
        (@store_remote JsonText.codec "https://store.example" "secret")
        (configured "https://store.example" "secret") "translate" "k" (JNum 1) 60
        (@Build_World (@store_remote JsonText.codec "https://store.example" "secret")
           ∅ [])).2).1
  = (@getRedisCachedJson JsonText.codec
       (@store_remote JsonText.codec "https://store.example" "secret")
       (configured "https://store.example" "secret") "analyze" "k"
       (@Build_World (@store_remote JsonText.codec "https://store.example" "secret")
          ∅ [])).1.
Proof.
  apply (@cache_prefixes_isolated JsonText.codec JsonText_laws
           "https://store.example" "secret" ltac:(done) ltac:(done)
           "translate" "k" "analyze" "k" (JNum 1) 60 ∅ []).
  done.
Defined.

Lemma cache_last_write_wins_witness :
  (@getRedisCachedJson JsonText.codec
     (@store_remote JsonText.codec "https://store.example" "secret")
     (configured "https://store.example" "secret") "translate" "k"
     (@setRedisCachedJson JsonText.codec
        (@store_remote JsonText.codec "https://store.example" "secret")
        (configured "https://store.example" "secret") "translate" "k" (JNum 2) 60
        (@setRedisCachedJson JsonText.codec
           (@store_remote JsonText.codec "https://store.example" "secret")
           (configured "https://store.example" "secret") "translate" "k" (JNum 1) 60
           (@Build_World (@store_remote JsonText.codec "https://store.example" "secret")
              ∅ [])).2).2).1
  = Normal (JNum 2).
Proof.
  apply (@cache_last_write_wins JsonText.codec JsonText_laws
           "https://store.example" "secret" ltac:(done) ltac:(done)
           "translate" "k" (JNum 1) (JNum 2) 60 60 ∅ []).
  lia.
Defined.

(** ** The route across requests *)

(** X9. Whoever asks, the health check answers with HTTP 200 and a body
    whose [status] property is "ok". *)
Theorem GET_always_ok (h : Host) (request : Request) :
  status (GET h request) = 200
  /\ exists fields, json_body (GET h request) = JObj fields
                    /\ obj_get "status" fields = Some (JStr "ok").
Proof.
  destruct (GET_cases h request) as [[_ ->]|[_ ->]]; (split; [done|]).
  - unfold detailed_body. cbn [json_body]. eauto.
  - unfold generic_ok. cbn [json_body]. eauto.
Qed.

(** X10. The secret is read from the environment at each request, the
    store configuration is not: once a non-empty secret is written to the
    environment a request carrying it is answered in detail, with the
    [redisEnabled] flag still that of the loaded module whatever else was
    written; once the secret is deleted every request gets the generic
    answer. *)
Theorem GET_reads_secret_per_request (h : Host) (s : string) (request : Request) :
  s ≠ "" ->
  headers_get (headers request) "x-healthcheck-token" = Some s ->
  GET (write_env h (SetEnv "HEALTHCHECK_SECRET" s)) request
    = {| json_body := detailed_body h; status := 200 |}
  /\ (forall url,
        GET (write_env (write_env h (SetEnv "UPSTASH_REDIS_REST_URL" url))
                       (SetEnv "HEALTHCHECK_SECRET" s)) request
        = {| json_body := detailed_body h; status := 200 |})
  /\ GET (write_env (write_env h (SetEnv "HEALTHCHECK_SECRET" s))
                    (DeleteEnv "HEALTHCHECK_SECRET")) request
     = {| json_body := JObj [("status", JStr "ok")]; status := 200 |}.
Proof.
  intros Hs Htok.
  assert (Hset : forall h0, GET (write_env h0 (SetEnv "HEALTHCHECK_SECRET" s)) request
                            = {| json_body := detailed_body h0; status := 200 |}).
  { intros h0.
    destruct (GET_cases (write_env h0 (SetEnv "HEALTHCHECK_SECRET" s)) request)
      as [[_ ->]|[Hno _]]; [done|].
    destruct Hno. exists s. split_and!; [|done|done].
    cbn [write_env process_env]. apply lookup_insert_eq. }
  split_and!.
  - apply Hset.
  - intros url. by rewrite Hset.
  - destruct (GET_cases (write_env (write_env h (SetEnv "HEALTHCHECK_SECRET" s))
                                   (DeleteEnv "HEALTHCHECK_SECRET")) request)
      as [[Hyes _]|[_ ->]]; [|done].
    destruct Hyes as (s' & Hlook & _). cbn [write_env process_env] in Hlook.
    by rewrite lookup_delete_eq in Hlook.
Qed.

Lemma GET_reads_secret_per_request_witness :
  GET (write_env (boot ∅ JNull JNull "") (SetEnv "HEALTHCHECK_SECRET" "s3cret"))
      {| headers := [("x-healthcheck-token", "s3cret")] |}
  = {| json_body := detailed_body (boot ∅ JNull JNull ""); status := 200 |}.
Proof.
  apply (GET_reads_secret_per_request (boot ∅ JNull JNull "") "s3cret"
           {| headers := [("x-healthcheck-token", "s3cret")] |});
    [done | reflexivity].
Defined.

(** ** Resource counts *)

Section Counts.
Import Resources.
Local Set Warnings "-clear-no-such-hyp".

Ltac case_zero :=
  match goal with
  | |- context [Z.eqb ?x 0] => destruct (Z.eqb_spec x 0)
  end; cbn [default from_option id]; unfold id; try done; try lia.

Lemma or_zero_default (x : option Z) : or_zero x = default 0 x.
Proof. destruct x as [n|]; simpl; [|done]. by destruct (Z.eqb_spec n 0). Qed.

Lemma Map_get_set_eq (m : list (string * Z)) (k : string) (v : Z) :
  Map_get (Map_set m k v) k = Some v.
Proof.
  induction m as [|[k' v'] m IH]; simpl.
  - by rewrite String.eqb_refl.
  - destruct (String.eqb_spec k' k) as [->|Hne]; simpl.
    + by rewrite String.eqb_refl.
    + by destruct (String.eqb_spec k' k).
Qed.

Lemma Map_get_set_ne (m : list (string * Z)) (k k' : string) (v : Z) :
  k ≠ k' -> Map_get (Map_set m k v) k' = Map_get m k'.
Proof.
  intros Hne. induction m as [|[k0 v0] m IH]; simpl.
  - by destruct (String.eqb_spec k k').
  - destruct (String.eqb_spec k0 k) as [->|Hk0]; simpl.
    + by destruct (String.eqb_spec k k').
    + by rewrite IH.
Qed.

Lemma Map_total_set (m : list (string * Z)) (k : string) (v : Z) :
  Map_total (Map_set m k v) = Map_total m - default 0 (Map_get m k) + v.
Proof.
  unfold Map_total. induction m as [|[k' v'] m IH]; simpl; [lia|].
  destruct (String.eqb_spec k' k) as [->|Hne]; simpl; lia.
Qed.

Lemma tally_get (key : Resource -> string) (resources : list Resource)
    (counts : list (string * Z)) (k : string) :
  Map_get (tally key resources counts) k =
    (if how_many (fun r => String.eqb (key r) k) resources =? 0
     then Map_get counts k
     else Some (default 0 (Map_get counts k)
                + how_many (fun r => String.eqb (key r) k) resources)).
Proof.
  unfold tally, how_many. revert counts.
  induction resources as [|r resources IH]; intros counts; [done|].
  cbn [fold_left List.filter]. rewrite IH, or_zero_default. clear IH.
  destruct (String.eqb_spec (key r) k) as [->|Hne].
  - rewrite Map_get_set_eq. cbn [length default].
    set (n := length (List.filter (fun r0 => String.eqb (key r0) k) resources)).
    clearbody n. rewrite Nat2Z.inj_succ. unfold id.
    generalize (default 0 (Map_get counts k)). intros d.
    destruct (Z.eqb_spec (Z.of_nat n) 0), (Z.eqb_spec (Z.succ (Z.of_nat n)) 0);
      try lia; f_equal; lia.
  - by rewrite Map_get_set_ne.
Qed.

Lemma tally_total (key : Resource -> string) (resources : list Resource)
    (counts : list (string * Z)) :
  Map_total (tally key resources counts)
  = Map_total counts + Z.of_nat (length resources).
Proof.
  unfold tally. revert counts.
  induction resources as [|r resources IH]; intros counts; [simpl; lia|].
  cbn [fold_left length]. rewrite IH, Map_total_set, or_zero_default. lia.
Qed.

Lemma filter_filter_length (p q : Resource -> bool) (resources : list Resource) :
  length (List.filter q (List.filter p resources))
  = length (List.filter (fun r => p r && q r) resources).
Proof.
  induction resources as [|r resources IH]; [done|]. simpl.
  destruct (p r); simpl; [|done]. destruct (q r); simpl; congruence.
Qed.

Lemma getCategoryResourceCounts_or_zero (resources : list Resource) (c : string) :
  or_zero (Map_get (getCategoryResourceCounts resources) c)
  = getResourceCountForCategory resources c.
Proof.
  change (getCategoryResourceCounts resources) with (tally category resources []).
  rewrite tally_get, or_zero_default. cbn [Map_get default].
  unfold getResourceCountForCategory, how_many. case_zero.
Qed.

(** X11. The map of category counts has, for every category, the number
    of resources of that category, and no entry for a category without
    resources; its values add up to the number of resources. *)
Theorem getCategoryResourceCounts_entries (resources : list Resource) (c : string) :
  Map_get (getCategoryResourceCounts resources) c
    = (if getResourceCountForCategory resources c =? 0 then None
       else Some (getResourceCountForCategory resources c))
  /\ or_zero (Map_get (getCategoryResourceCounts resources) c)
     = getResourceCountForCategory resources c
  /\ Map_total (getCategoryResourceCounts resources) = getTotalResourceCount resources.
Proof.
  change (getCategoryResourceCounts resources) with (tally category resources []).
  change (getResourceCountForCategory resources c)
    with (how_many (fun r => String.eqb (category r) c) resources).
  rewrite tally_get, tally_total, or_zero_default. cbn [Map_get default].
  split_and!.
  - done.
  - by destruct (Z.eqb_spec (how_many (fun r => String.eqb (category r) c) resources) 0).
  - unfold getTotalResourceCount. by cbn.
Qed.

Lemma getSubcategoryResourceCounts_filtered (resources : list Resource) (c : string) :
  c ≠ "" ->
  getSubcategoryResourceCounts resources (Some c)
  = tally subcategory (List.filter (fun r => String.eqb (category r) c) resources) [].
Proof.
  intros Hc. unfold getSubcategoryResourceCounts.
  by rewrite (proj2 (truthy_Some c) Hc).
Qed.

(** X12. Restricted to a category with a non-empty identifier, the map of
    subcategory counts has for every subcategory the number of resources in
    that category and subcategory, and its values add up to the count of
    the category.  An empty identifier restricts nothing: it counts as the
    absent argument does, across all categories. *)
Theorem getSubcategoryResourceCounts_entries (resources : list Resource)
    (c sub : string) :
  (c ≠ "" ->
   or_zero (Map_get (getSubcategoryResourceCounts resources (Some c)) sub)
     = getResourceCountForSubcategory resources c sub
   /\ Map_total (getSubcategoryResourceCounts resources (Some c))
      = getResourceCountForCategory resources c)
  /\ getSubcategoryResourceCounts resources (Some "")
     = getSubcategoryResourceCounts resources None
  /\ or_zero (Map_get (getSubcategoryResourceCounts resources None) sub)
     = how_many (fun r => String.eqb (subcategory r) sub) resources.
Proof.
  split_and!.
  - intros Hc. rewrite getSubcategoryResourceCounts_filtered by done.
    rewrite tally_get, tally_total, or_zero_default. cbn [Map_get default].
    unfold how_many, getResourceCountForSubcategory, getResourceCountForCategory.
    rewrite filter_filter_length. split; [|by cbn].
    case_zero.
  - reflexivity.
  - change (getSubcategoryResourceCounts resources None)
      with (tally subcategory resources []).
    rewrite tally_get, or_zero_default. cbn [Map_get default].
    case_zero.
Qed.

Lemma subcategory_counts_hold_iff (id : string) (subs : list SubcategoryWithCount)
    (resources : list Resource) :
  subcategory_counts_hold id subs resources = true <->
  Forall (fun s => swc_resourceCount s =
                   getResourceCountForSubcategory resources id
                     (sub_id (swc_subcategory s))) subs.
Proof.
  induction subs as [|s subs IH]; cbn [subcategory_counts_hold].
  - split; [constructor | done].
  - rewrite Forall_cons, <- IH.
    fold (getResourceCountForSubcategory resources id (sub_id (swc_subcategory s))).
    destruct (Z.eqb_spec (swc_resourceCount s)
                (getResourceCountForSubcategory resources id
                   (sub_id (swc_subcategory s)))); cbn [negb]; naive_solver.
Qed.

Lemma validateCategoryCounts_iff (categories : list CategoryWithCount)
    (resources : list Resource) :
  validateCategoryCounts categories resources = true <->
  Forall (counts_exact resources) categories.
Proof.
  induction categories as [|c categories IH]; cbn [validateCategoryCounts].
  - split; [constructor | done].
  - rewrite Forall_cons, <- IH. unfold counts_exact at 1.
    rewrite <- subcategory_counts_hold_iff.
    fold (getResourceCountForCategory resources (cat_id (cwc_category c))).
    destruct (Z.eqb_spec (cwc_resourceCount c)
                (getResourceCountForCategory resources (cat_id (cwc_category c))));
      cbn [negb]; [|naive_solver].
    destruct (subcategory_counts_hold _ _ resources); cbn [negb]; naive_solver.
Qed.

(** X13. [validateCategoryCounts] answers [true] exactly when every
    category's count is the number of resources of that category and every
    subcategory's count is the number of resources of that category and
    subcategory. *)
Theorem validateCategoryCounts_exact (categories : list CategoryWithCount)
    (resources : list Resource) :
  (validateCategoryCounts categories resources = true <->
   Forall (counts_exact resources) categories)
  /\ (validateCategoryCounts categories resources = false <->
      Exists (fun c => ~ counts_exact resources c) categories).
Proof.
  pose proof (validateCategoryCounts_iff categories resources) as Hiff.
  split; [exact Hiff|].
  rewrite <- not_true_iff_false, Hiff. split.
  - intros Hnot. apply not_Forall_Exists in Hnot; [done|].
    intros c. unfold counts_exact.
    destruct (decide (cwc_resourceCount c =
                      getResourceCountForCategory resources (cat_id (cwc_category c))))
      as [Hc|Hc]; [|right; naive_solver].
    destruct (subcategory_counts_hold (cat_id (cwc_category c))
                (subcategoriesWithCount c) resources) eqn:Hs.
    + left. split; [done|]. by apply subcategory_counts_hold_iff.
    + right. intros [_ Hall]. apply subcategory_counts_hold_iff in Hall. congruence.
  - intros Hex Hall. apply Exists_exists in Hex as (c & Hin & Hc).
    apply Hc. rewrite Forall_forall in Hall. by apply Hall.
Qed.

(** X14. What [enrichCategoriesWithCounts] returns passes
    [validateCategoryCounts] against the same resources, provided no
    category identifier is the empty string; the categories come back in
    order, each with its own subcategories. *)
Theorem enrichCategoriesWithCounts_validates (categories : list Category)
    (resources : list Resource) :
  Forall (fun c => cat_id c ≠ "") categories ->
  validateCategoryCounts (enrichCategoriesWithCounts categories resources) resources
    = true
  /\ map cwc_category (enrichCategoriesWithCounts categories resources) = categories
  /\ Forall (fun c => map swc_subcategory (subcategoriesWithCount c)
                      = subcategories (cwc_category c))
            (enrichCategoriesWithCounts categories resources).
Proof.
  intros Hids. unfold enrichCategoriesWithCounts. split_and!.
  - apply validateCategoryCounts_iff. apply Forall_map.
    eapply Forall_impl; [exact Hids|]. intros c Hc. cbv beta in Hc.
    unfold counts_exact. cbn [cwc_resourceCount cwc_category subcategoriesWithCount].
    split.
    + apply getCategoryResourceCounts_or_zero.
    + apply Forall_map, Forall_forall. intros s _. cbn [swc_resourceCount swc_subcategory].
      rewrite getSubcategoryResourceCounts_filtered by done.
      rewrite tally_get, or_zero_default. cbn [Map_get default].
      unfold how_many, getResourceCountForSubcategory.
      rewrite filter_filter_length. case_zero.
  - rewrite map_map. cbn [cwc_category]. apply map_id.
  - apply Forall_map, Forall_forall. intros c _.
    cbn [subcategoriesWithCount cwc_category]. rewrite map_map.
    cbn [swc_subcategory]. apply map_id.
Qed.

Lemma how_many_none (p : Resource -> bool) (resources : list Resource) :
  (forall r, p r = false) -> how_many p resources = 0.
Proof.
  intros Hp. unfold how_many.
  induction resources as [|r resources IH]; [done|]. simpl. by rewrite Hp.
Qed.

Lemma how_many_or (p q : Resource -> bool) (resources : list Resource) :
  (forall r, p r = true -> q r = false) ->
  how_many (fun r => p r || q r) resources = how_many p resources + how_many q resources.
Proof.
  intros Hpq. unfold how_many.
  induction resources as [|r resources IH]; [done|]. simpl.
  destruct (p r) eqn:Hp; simpl.
  - rewrite (Hpq r Hp). simpl. lia.
  - destruct (q r); simpl; lia.
Qed.

Lemma how_many_bounds (p : Resource -> bool) (resources : list Resource) :
  0 <= how_many p resources <= getTotalResourceCount resources.
Proof.
  unfold how_many, getTotalResourceCount.
  pose proof (List.filter_length_le p resources). lia.
Qed.

Lemma includes_spec (l : list string) (x : string) :
  includes l x = true <-> x ∈ l.
Proof.
  unfold includes. induction l as [|y l IH]; simpl.
  - split; [done | by intros ?%elem_of_nil].
  - rewrite elem_of_cons, <- IH.
    destruct (String.eqb_spec y x) as [->|Hne]; simpl; naive_solver.
Qed.

(** Distinct values partition the resources that carry one of them. *)
Lemma how_many_by_value (key : Resource -> string) (values : list string)
    (resources : list Resource) :
  NoDup values ->
  fold_right Z.add 0
    (map (fun v => how_many (fun r => String.eqb (key r) v) resources) values)
  = how_many (fun r => includes values (key r)) resources.
Proof.
  induction 1 as [|v values Hv Hnd IH]; cbn [map fold_right].
  - by rewrite how_many_none.
  - rewrite IH.
    rewrite <- (how_many_or (fun r => String.eqb (key r) v)
                            (fun r => includes values (key r))).
    + unfold how_many. f_equal. f_equal. apply List.filter_ext. intros r.
      unfold includes. cbn [existsb]. by rewrite String.eqb_sym.
    + intros r Hr. apply String.eqb_eq in Hr. subst v.
      destruct (includes values (key r)) eqn:Hin; [|done].
      by apply includes_spec in Hin.
Qed.

(** X15. Given difficulty levels and price types listed without
    repetition, the difficulty counts add up to the number of resources
    whose difficulty is listed, and likewise the price-type counts; the
    options come in the order of the constants; and no platform count
    exceeds the number of resources, although a resource with several
    platforms is counted under each. *)
Theorem getFilterOptions_totals (levels prices plats : list string)
    (resources : list Resource) :
  NoDup levels -> NoDup prices ->
  let options := getFilterOptions levels prices plats resources in
  options_total (difficulties options)
    = how_many (fun r => includes levels (difficulty r)) resources
  /\ options_total (priceTypes options)
     = how_many (fun r => includes prices (priceType r)) resources
  /\ map value (difficulties options) = levels
  /\ map value (priceTypes options) = prices
  /\ map value (platformOptions options) = plats
  /\ Forall (fun o => 0 <= count o <= getTotalResourceCount resources)
            (platformOptions options).
Proof.
  intros Hlevels Hprices options. subst options.
  unfold getFilterOptions, options_total.
  cbn [difficulties priceTypes platformOptions].
  rewrite !map_map. cbn [count value]. rewrite !map_id.
  split_and!; try done.
  - apply (how_many_by_value difficulty levels resources Hlevels).
  - apply (how_many_by_value priceType prices resources Hprices).
  - apply Forall_map, Forall_forall. intros plat _. cbn [count].
    apply how_many_bounds.
Qed.

End Counts.

Lemma enrichCategoriesWithCounts_validates_witness :
  Resources.validateCategoryCounts
    (Resources.enrichCategoriesWithCounts
       [{| Resources.cat_id := "books"; Resources.cat_other := JNull;
           Resources.subcategories :=
             [{| Resources.sub_id := "grammar"; Resources.sub_other := JNull |}] |}]
       [{| Resources.category := "books"; Resources.subcategory := "grammar";
           Resources.difficulty := "beginner"; Resources.priceType := "free";
           Resources.platforms := ["web"] |}])
    [{| Resources.category := "books"; Resources.subcategory := "grammar";
        Resources.difficulty := "beginner"; Resources.priceType := "free";
        Resources.platforms := ["web"] |}]
  = true.
Proof.
  apply enrichCategoriesWithCounts_validates.
  repeat constructor; done.
Defined.

(** With the empty string as a category identifier the subcategory counts
    are taken over all categories, and the validation rejects them. *)
Example enrich_empty_identifier_fails_validation :
  let resources :=
    [{| Resources.category := "books"; Resources.subcategory := "grammar";
        Resources.difficulty := "beginner"; Resources.priceType := "free";
        Resources.platforms := ["web"] |}] in
  Resources.validateCategoryCounts
    (Resources.enrichCategoriesWithCounts
       [{| Resources.cat_id := ""; Resources.cat_other := JNull;
           Resources.subcategories :=
             [{| Resources.sub_id := "grammar"; Resources.sub_other := JNull |}] |}]
       resources)
    resources
  = false.
Proof. vm_compute. reflexivity. Qed.

Lemma getFilterOptions_totals_witness :
  let resources :=
    [{| Resources.category := "books"; Resources.subcategory := "grammar";
        Resources.difficulty := "beginner"; Resources.priceType := "free";
        Resources.platforms := ["web"; "ios"] |};
     {| Resources.category := "apps"; Resources.subcategory := "srs";
        Resources.difficulty := "advanced"; Resources.priceType := "paid";
        Resources.platforms := ["ios"] |}] in
  Resources.options_total
    (Resources.difficulties
       (Resources.getFilterOptions ["beginner"; "advanced"] ["free"; "paid"]
          ["web"; "ios"] resources))
  = Resources.how_many
      (fun r => Resources.includes ["beginner"; "advanced"] (Resources.difficulty r))
      resources.
Proof.
  intros resources.
  apply (getFilterOptions_totals ["beginner"; "advanced"] ["free"; "paid"]
           ["web"; "ios"] resources).
  - by apply (bool_decide_unpack _).
  - by apply (bool_decide_unpack _).
Defined.

(** ** Translation keys *)

Lemma string_app_assoc (a b c : string) : (a +:+ b) +:+ c = a +:+ (b +:+ c).
Proof.
  induction a as [|x a IH]; [reflexivity|].
  change (String x ((a +:+ b) +:+ c) = String x (a +:+ (b +:+ c))). by rewrite IH.
Qed.

Lemma string_app_nonempty (a b : string) : b ≠ "" -> a +:+ b ≠ "".
Proof.
  intros Hb. destruct a as [|x a]; [exact Hb|].
  change (String x (a +:+ b) ≠ ""). discriminate.
Qed.

Section Keys.
Import Translations.
Local Set Warnings "-clear-no-such-hyp".

Lemma full_key_nonempty_prefix (prefix key : string) :
  prefix ≠ "" -> full_key prefix key = prefix +:+ "." +:+ key.
Proof. intros Hp. unfold full_key. by rewrite (proj2 (truthy_Some prefix) Hp). Qed.

Lemma full_key_empty_prefix (key : string) : full_key "" key = key.
Proof. reflexivity. Qed.

Lemma property_keys_object (fields : list (string * JSON)) (fullKey : string) :
  property_keys (JObj fields) fullKey = getKeys fields fullKey.
Proof.
  induction fields as [|[key inner] fields IH]; [done|].
  cbn [getKeys]. rewrite <- IH. reflexivity.
Qed.

Lemma leaf_at_mono (fields fields' : list (string * JSON)) (path : list string) :
  (forall kv, kv ∈ fields -> kv ∈ fields') ->
  leaf_at fields path -> leaf_at fields' path.
Proof.
  intros Hsub Hleaf. destruct Hleaf as [fields name value Hin Hv|fields name inner path Hin Hl].
  - eapply leaf_here; eauto.
  - eapply leaf_below; eauto.
Qed.

Lemma getKeys_by_paths (fields : list (string * JSON)) :
  Forall (fun kv => keys_by_paths kv.2) fields ->
  forall (prefix k : string),
    k ∈ getKeys fields prefix <->
    exists path, leaf_at fields path /\ k = fold_left full_key path prefix.
Proof.
  induction 1 as [|[key value] fields Hvalue Hfields IH]; intros prefix k.
  - cbn [getKeys]. split; [by intros ?%elem_of_nil|].
    intros (path & Hleaf & _). inversion Hleaf as [? ? ? Hin|? ? ? ? Hin];
      by apply elem_of_nil in Hin.
  - cbn [getKeys snd] in *. rewrite elem_of_app, (Hvalue (full_key prefix key) k), IH.
    split.
    + intros [[[Hleaf ->]|(inner & path & -> & Hleaf & ->)]|(path & Hleaf & ->)].
      * exists [key]. split; [|done]. eapply leaf_here; [apply list_elem_of_here|done].
      * exists (key :: path). split; [|done].
        eapply leaf_below; [apply list_elem_of_here|done].
      * exists path. split; [|done].
        eapply leaf_at_mono; [|exact Hleaf]. intros kv Hkv. by apply list_elem_of_further.
    + intros (path & Hleaf & ->).
      inversion Hleaf as [? name v Hin Hv|? name inner path' Hin Hbelow]; subst.
      * apply elem_of_cons in Hin as [Heq|Hin].
        -- simplify_eq. left. left. done.
        -- right. exists [name]. split; [|done]. by eapply leaf_here.
      * apply elem_of_cons in Hin as [Heq|Hin].
        -- simplify_eq. left. right. exists inner, path'. done.
        -- right. exists (name :: path'). split; [|done]. by eapply leaf_below.
Qed.

Lemma property_keys_by_paths (value : JSON) : keys_by_paths value.
Proof.
  induction value as [ |b|n|s|items _|fields IH] using JSON_nested_ind;
    intros fullKey k;
    try (cbn [property_keys]; rewrite list_elem_of_singleton; split;
         [intros ->; by left
         |intros [[_ ->]|(inner & path & [=] & _)]; done]).
  rewrite property_keys_object, (getKeys_by_paths fields IH). split.
  - intros (path & Hleaf & ->). right. eauto.
  - intros [[Hno _]|(inner & path & [= <-] & Hleaf & ->)]; [by destruct (Hno fields)|].
    eauto.
Qed.

Lemma leaf_at_nonempty (fields : list (string * JSON)) (path : list string) :
  leaf_at fields path -> path ≠ [].
Proof. by destruct 1. Qed.

Lemma fold_full_key_dotted (path : list string) (prefix : string) :
  Forall (fun name => name ≠ "") path -> prefix ≠ "" -> path ≠ [] ->
  fold_left full_key path prefix = prefix +:+ "." +:+ join "." path.
Proof.
  intros Hnames. revert prefix.
  induction Hnames as [|name path Hname Hnames IH]; intros prefix Hprefix Hpath; [done|].
  cbn [fold_left]. rewrite (full_key_nonempty_prefix prefix name Hprefix).
  destruct path as [|name' path]; [done|].
  rewrite IH; [| |done].
  - change (join "." (name :: name' :: path))
      with (name +:+ "." +:+ join "." (name' :: path)).
    by rewrite !string_app_assoc.
  - apply string_app_nonempty, string_app_nonempty. done.
Qed.

Lemma fold_full_key_top (path : list string) :
  Forall (fun name => name ≠ "") path -> path ≠ [] ->
  fold_left full_key path "" = join "." path.
Proof.
  intros Hnames Hpath. destruct path as [|name path]; [done|].
  cbn [fold_left]. rewrite full_key_empty_prefix.
  apply (proj1 (Forall_cons _ _ _)) in Hnames as [Hname Hnames].
  destruct path as [|name' path]; [done|].
  by rewrite fold_full_key_dotted.
Qed.

(** X16. As long as no property name on the way to a leaf is empty,
    [getKeys(obj)] lists exactly the dot-joined paths of property names that
    lead to a value which is not itself a nested object ([null], arrays,
    strings, numbers and booleans are leaves); a nested object without
    leaves, such as [{}], contributes no key. *)
Theorem getKeys_lists_leaf_paths (obj : list (string * JSON)) :
  (forall path, leaf_at obj path -> Forall (fun name => name ≠ "") path) ->
  forall k, k ∈ getKeys obj "" <->
            exists path, leaf_at obj path /\ k = join "." path.
Proof.
  intros Hnames k.
  rewrite (getKeys_by_paths obj); [|apply Forall_forall; intros kv _;
                                    apply property_keys_by_paths].
  split; intros (path & Hleaf & ->); exists path; (split; [done|]).
  - apply fold_full_key_top; [by apply Hnames | by eapply leaf_at_nonempty].
  - symmetry. apply fold_full_key_top; [by apply Hnames | by eapply leaf_at_nonempty].
Qed.






Lemma length_eqb_0 (l : list string) : (length l =? 0)%nat = true <-> l = [].
Proof. destruct l; simpl; split; done. Qed.





End Keys.

Ltac leaf_cases :=
  repeat match goal with
         | H : Translations.leaf_at (_ :: _) _ |- _ => inversion H; clear H; subst
         | H : Translations.leaf_at [] _ |- _ => inversion H; clear H; subst
         | H : _ ∈ _ :: _ |- _ => apply elem_of_cons in H as [H|H]; [simplify_eq|]
         | H : _ ∈ [] |- _ => by apply elem_of_nil in H
         end.

Lemma getKeys_lists_leaf_paths_witness :
  "menu.title" ∈ Translations.getKeys
                   [("menu", JObj [("title", JStr "Menu"); ("empty", JObj [])]);
                    ("tags", JArr [JStr "a"])] ""
  <-> exists path,
        Translations.leaf_at
          [("menu", JObj [("title", JStr "Menu"); ("empty", JObj [])]);
           ("tags", JArr [JStr "a"])] path
        /\ "menu.title" = join "." path.
Proof.
  apply getKeys_lists_leaf_paths.
  intros path Hleaf. leaf_cases; repeat constructor; done.
Defined.

(** An empty property name is dropped from the key, so two different
    paths can yield the same key; an empty nested object yields none. *)
Example getKeys_edge_cases :
  Translations.getKeys [("", JObj [("a", JNum 1)]); ("a", JNum 2)] "" = ["a"; "a"]
  /\ Translations.getKeys [("a", JObj [])] "" = []
  /\ Translations.getKeys [("a", JNull); ("b", JArr [JObj [("c", JNum 1)]])] ""
     = ["a"; "b"].
Proof. vm_compute. done. Qed.

(** Two empty files agree with each other, yet the empty reference is
    reported; a language file holding [0] is not an error of its own but
    leaves every reference key missing. *)
Example validateNamespace_edge_cases :
  Translations.validateNamespace (fun _ => Translations.Loaded (JObj [])) false = true
  /\ Translations.validateNamespace
       (fun lang => if String.eqb lang "en"
                    then Translations.Loaded (JObj [("a", JStr "A")])
                    else Translations.Loaded (JNum 0)) false = true
  /\ Translations.validateNamespace
       (fun lang => if String.eqb lang "en"
                    then Translations.Loaded (JObj [("a", JStr "A"); ("b", JStr "B")])
                    else Translations.Loaded (JObj [("b", JStr "b"); ("a", JStr "a")]))
       false = false.
Proof. vm_compute. done. Qed.

(** ** The configuration drift check *)

Section DriftCheck.
Import Drift.

Lemma every_matches_drop (a b : list string) (index : nat) :
  every_matches a b index = true ->
  length a = length (drop index b) -> a = drop index b.
Proof.
  revert index. induction a as [|value a IH]; intros index Hall Hlen.
  - symmetry. by apply nil_length_inv.
  - cbn [every_matches] in Hall. apply andb_true_iff in Hall as [Hhere Hrest].
    destruct (b !! index) as [other|] eqn:Hb; [|done].
    apply String.eqb_eq in Hhere as ->.
    rewrite (drop_S b other index Hb) in *. cbn [length] in Hlen.
    f_equal. apply IH; [done|lia].
Qed.

Lemma every_matches_self (a b : list string) (index : nat) :
  a = drop index b -> every_matches a b index = true.
Proof.
  revert index. induction a as [|value a IH]; intros index Ha; [done|].
  cbn [every_matches].
  assert (Hb : b !! index = Some value).
  { rewrite <- (Nat.add_0_r index), <- lookup_drop, <- Ha. done. }
  rewrite Hb, String.eqb_refl. cbn [andb]. apply IH.
  rewrite (drop_S b value index Hb) in Ha. congruence.
Qed.

Lemma arraysEqual_iff (a b : option (list string)) :
  arraysEqual a b = true <-> exists l, a = Some l /\ b = Some l.
Proof.
  destruct a as [a|], b as [b|]; cbn [arraysEqual];
    try (split; [done | intros (l & [=] & [=])]).
  destruct (Nat.eqb_spec (length a) (length b)) as [Hlen|Hlen]; cbn [negb].
  - split.
    + intros Hall. exists a. split; [done|]. f_equal. symmetry.
      by apply (every_matches_drop a b 0).
    + intros (l & [= ->] & [= ->]). by apply every_matches_self.
  - split; [done|]. intros (l & [= ->] & [= ->]). done.
Qed.

(** X18. [arraysEqual] is [true] exactly when both arguments are arrays and
    hold the same strings in the same order; a [null] argument makes it
    [false], also against another [null]. *)
Theorem arraysEqual_exact (a b : option (list string)) :
  (arraysEqual a b = true <-> exists l, a = Some l /\ b = Some l)
  /\ arraysEqual None None = false
  /\ (forall l, arraysEqual (Some l) (Some l) = true).
Proof.
  split_and!.
  - apply arraysEqual_iff.
  - reflexivity.
  - intros l. apply arraysEqual_iff. eauto.
Qed.

Lemma unparsed_false (xs : option (list string)) :
  unparsed xs = false <-> exists l, xs = Some l /\ l ≠ [].
Proof.
  destruct xs as [[|x l]|]; cbn; split; try done.
  - intros (l & [= <-] & Hl). done.
  - eauto.
  - intros (l & [=] & _).
Qed.

(** X19. The drift check passes exactly when all four lists were parsed
    and are non-empty, the routing locales are the validator's languages
    and the request namespaces are the validator's namespaces, element for
    element; a list that could not be parsed is reported before any
    mismatch. *)
Theorem main_passes_iff (routingLocales requestNamespaces validatorLanguages
    validatorNamespaces : option (list string)) :
  (main routingLocales requestNamespaces validatorLanguages validatorNamespaces
     = Passed <->
   exists locales namespaces,
     locales ≠ [] /\ namespaces ≠ []
     /\ routingLocales = Some locales /\ validatorLanguages = Some locales
     /\ requestNamespaces = Some namespaces /\ validatorNamespaces = Some namespaces)
  /\ (routingLocales = None ->
      main routingLocales requestNamespaces validatorLanguages validatorNamespaces
        = Failed "Could not parse locales from core/i18n/routing.ts").
Proof.
  split; [|by intros ->].
  unfold main.
  destruct (unparsed routingLocales) eqn:H1.
  { split; [done|]. intros (l & n & Hl & _ & -> & _). by destruct l. }
  destruct (unparsed requestNamespaces) eqn:H2.
  { split; [done|]. intros (l & n & _ & Hn & _ & _ & -> & _). by destruct n. }
  destruct (unparsed validatorLanguages) eqn:H3.
  { split; [done|]. intros (l & n & Hl & _ & _ & -> & _). by destruct l. }
  destruct (unparsed validatorNamespaces) eqn:H4.
  { split; [done|]. intros (l & n & _ & Hn & _ & _ & _ & ->). by destruct n. }
  destruct (arraysEqual routingLocales validatorLanguages) eqn:H5; cbn [negb].
  - destruct (arraysEqual requestNamespaces validatorNamespaces) eqn:H6; cbn [negb].
    + split; [intros _|done].
      apply arraysEqual_iff in H5 as (l & -> & ->).
      apply arraysEqual_iff in H6 as (n & -> & ->).
      apply unparsed_false in H1 as (l' & [= <-] & Hl).
      apply unparsed_false in H2 as (n' & [= <-] & Hn).
      exists l, n. done.
    + split; [done|]. intros (l & n & _ & _ & _ & _ & -> & ->).
      assert (arraysEqual (Some n) (Some n) = true) by (apply arraysEqual_iff; eauto).
      congruence.
  - split; [done|]. intros (l & n & _ & _ & -> & -> & _).
    assert (arraysEqual (Some l) (Some l) = true) by (apply arraysEqual_iff; eauto).
    congruence.
Qed.

End DriftCheck.

(** A locale added to the routing but not to the validator. *)
Example main_reports_locale_mismatch :
  Drift.main (Some ["en"; "es"; "ja"]) (Some ["common"]) (Some ["en"; "es"])
             (Some ["common"])
  = Drift.Failed
      "Locale mismatch. routing.ts: [en, es, ja] vs validate-translations.js: [en, es]".
Proof. vm_compute. reflexivity. Qed.
